(** * Poster scraper (scrape.py): filename sanitizer, failure recorder,
      fetch worker and scheduler, embedded as Rocq functions.

    Python [str] values are modelled as [string]: the input table is read
    with [encoding="latin1"], so every character of a title or URL is one
    code point below 256, which is what an [ascii] holds. *)

From Stdlib Require Import ZArith Lia List String Ascii Bool DecimalString.
From Stdlib Require DecimalPos DecimalZ.
From stdpp Require Import base gmap strings.
Import ListNotations.

Local Open Scope string_scope.
Local Open Scope Z_scope.

(** stdpp keeps [simpl] from unfolding the append of strings; the proofs
    below compute with it. *)
#[local] Arguments String.append !s1 s2 : simpl nomatch.

(** ** Constants of the module (lines 26-31) *)

Definition IMAGE_DIR : string := "poster_images".
Definition FAILED_JSONL : string := "poster_download_failures.jsonl".
Definition CONCURRENCY : nat := 500.
Definition DEFAULT_MAX_LEN : Z := 100.

(** ** Filename sanitizer (lines 34-38) *)

(** The characters the class [A-Za-z0-9._-] accepts. *)
Definition is_safe (c : ascii) : bool :=
  let n := nat_of_ascii c in
  ((65 <=? n) && (n <=? 90))%nat
  || ((97 <=? n) && (n <=? 122))%nat
  || ((48 <=? n) && (n <=? 57))%nat
  || (n =? 46)%nat || (n =? 95)%nat || (n =? 45)%nat.

(** [SAFE_CHARS.sub("_", name)] for the pattern [[^A-Za-z0-9._-]+]: the
    scan goes left to right, every maximal run of characters outside the
    class is one match, and each match is replaced by one underscore.
    [in_run] says that the previous character belonged to the match that
    is being consumed. *)
Fixpoint sub_runs (in_run : bool) (name : string) : string :=
  match name with
  | EmptyString => EmptyString
  | String c rest =>
      if is_safe c then String c (sub_runs false rest)
      else if in_run then sub_runs true rest
      else String "_" (sub_runs true rest)
  end.

Definition SAFE_CHARS_sub (name : string) : string := sub_runs false name.

(** The slice [s[:n]] of Python: a negative [n] counts from the end, and
    both ends are clamped to the string. *)
Definition slice_to (s : string) (n : Z) : string :=
  let len := Z.of_nat (String.length s) in
  let stop := if n <? 0 then Z.max 0 (len + n) else Z.min n len in
  substring 0 (Z.to_nat stop) s.

Definition sanitize_filename (name : string) (max_len : Z) : string :=
  slice_to (SAFE_CHARS_sub name) max_len ++ ".jpg".

(** The sanitizer as the specification words it: every character outside
    the class becomes an underscore, one for one; the result is cut to
    [max_len] characters and the extension is appended. *)
Fixpoint replace_each (name : string) : string :=
  match name with
  | EmptyString => EmptyString
  | String c rest => String (if is_safe c then c else "_"%char) (replace_each rest)
  end.

Definition sanitize_per_char (name : string) (max_len : Z) : string :=
  substring 0 (Z.to_nat max_len) (replace_each name) ++ ".jpg".

(** Every character of [s] is in the class. *)
Fixpoint all_safe (s : string) : bool :=
  match s with
  | EmptyString => true
  | String c rest => is_safe c && all_safe rest
  end.

(** No character of [s] is in the class. *)
Fixpoint all_unsafe (s : string) : bool :=
  match s with
  | EmptyString => true
  | String c rest => negb (is_safe c) && all_unsafe rest
  end.

(** [s] is empty or begins with a character of the class, so a run that
    ends just before [s] is maximal. *)
Definition run_ends_at (s : string) : bool :=
  match s with
  | EmptyString => true
  | String c _ => is_safe c
  end.

(** No two neighbouring characters of [s] are both outside the class. *)
Fixpoint no_adjacent_unsafe (s : string) : bool :=
  match s with
  | EmptyString => true
  | String c rest =>
      (is_safe c || run_ends_at rest) && no_adjacent_unsafe rest
  end.

(** [Collapsed name out]: [out] is [name] with every maximal run of
    characters outside the class replaced by a single underscore. *)
Inductive Collapsed : string -> string -> Prop :=
| Collapsed_nil : Collapsed "" ""
| Collapsed_safe c s r :
    is_safe c = true -> Collapsed s r -> Collapsed (String c s) (String c r)
| Collapsed_run u s r :
    u <> "" -> all_unsafe u = true -> run_ends_at s = true ->
    Collapsed s r -> Collapsed (u ++ s) (String "_" r).

(** ** Values handed to the failure recorder *)

(** A cell of the Poster column: pandas yields the float NaN for a missing
    cell and a [str] otherwise. *)
Inductive url_value : Type :=
| UrlNaN
| UrlStr (s : string).

(** The Python objects that occur as values of the record dict: [None],
    the float NaN and [str]. *)
Inductive py_value : Type :=
| PyNone
| PyNaN
| PyStr (s : string).

Definition py_of_url (url : url_value) : py_value :=
  match url with
  | UrlNaN => PyNaN
  | UrlStr s => PyStr s
  end.

Definition py_of_tb (tb : option string) : py_value :=
  match tb with
  | None => PyNone
  | Some s => PyStr s
  end.

(** ** json.dumps(record, ensure_ascii=False) *)

Definition dquote : ascii := Eval cbv in ascii_of_nat 34.
Definition backslash : ascii := Eval cbv in ascii_of_nat 92.
Definition newline : ascii := Eval cbv in ascii_of_nat 10.

Definition hex_digit (n : nat) : ascii :=
  match n with
  | 0 => "0" | 1 => "1" | 2 => "2" | 3 => "3" | 4 => "4" | 5 => "5"
  | 6 => "6" | 7 => "7" | 8 => "8" | 9 => "9" | 10 => "a" | 11 => "b"
  | 12 => "c" | 13 => "d" | 14 => "e" | _ => "f"
  end%nat%char.

(** The table ESCAPE_DCT of the json encoder: quote, backslash and the
    five short escapes; every other character below 0x20 as \u00XX;
    everything else unchanged, since [ensure_ascii] is off. *)
Definition escape_char (c : ascii) : string :=
  let n := nat_of_ascii c in
  if (n =? 34)%nat then String backslash (String dquote "")
  else if (n =? 92)%nat then "\\"
  else if (n =? 10)%nat then "\n"
  else if (n =? 13)%nat then "\r"
  else if (n =? 9)%nat then "\t"
  else if (n =? 8)%nat then "\b"
  else if (n =? 12)%nat then "\f"
  else if (n <? 32)%nat then
    "\u00" ++ String (hex_digit (n / 16)) (String (hex_digit (n mod 16)) "")
  else String c "".

Fixpoint escape_chars (s : string) : string :=
  match s with
  | EmptyString => EmptyString
  | String c rest => escape_char c ++ escape_chars rest
  end.

Definition encode_str (s : string) : string :=
  String dquote (escape_chars s ++ String dquote "").

Definition encode_value (v : py_value) : string :=
  match v with
  | PyNone => "null"
  | PyNaN => "NaN"
  | PyStr s => encode_str s
  end.

(** The members of a dict in insertion order, joined by the default item
    separator ", " with the key separator ": ". *)
Fixpoint encode_items (items : list (string * py_value)) : string :=
  match items with
  | [] => ""
  | [(k, v)] => encode_str k ++ ": " ++ encode_value v
  | (k, v) :: rest => encode_str k ++ ": " ++ encode_value v ++ ", " ++ encode_items rest
  end.

Definition json_dumps (items : list (string * py_value)) : string :=
  "{" ++ encode_items items ++ "}".

(** ** The failure record (lines 47-52) *)

Record failure_record : Type := mk_record {
  rec_title : string;
  rec_url : url_value;
  rec_reason : string;
  rec_traceback : option string
}.

Definition record_items (r : failure_record) : list (string * py_value) :=
  [ ("title", PyStr (rec_title r));
    ("url", py_of_url (rec_url r));
    ("reason", PyStr (rec_reason r));
    ("traceback", py_of_tb (rec_traceback r)) ].

(** The text one call appends to the log (line 54). *)
Definition record_line (r : failure_record) : string :=
  json_dumps (record_items r) ++ String newline "".

(** ** Exceptions *)

(** Which [except] clause of [fetch_image] an exception reaches
    (lines 82 and 84).  Cancellation is outside the scope of the
    specification, so every modelled exception derives from [Exception]. *)
Inductive exn_class : Type :=
| ClientError      (* aiohttp.ClientError and its subclasses *)
| TimeoutError     (* asyncio.TimeoutError *)
| OtherException.  (* any other subclass of Exception *)

Record exn : Type := mk_exn {
  exn_name : string;        (* type(e).__name__ *)
  exn_class_of : exn_class;
  exn_traceback : string    (* traceback.format_exc() while e is handled *)
}.

(** ** The world a fetch runs in *)

Definition bytes : Type := list Byte.byte.

(** What one append to the failure log does (lines 53-54): it goes
    through, or opening the file raises, or the write or the close
    raises after [written] characters of the line have reached the
    file. *)
Inductive log_answer : Type :=
| LogOk
| LogOpenRaises (e : exn)
| LogWriteRaises (written : nat) (e : exn).

(** The file system is kept in two parts: [failure_log] is the content
    of the one file FAILED_JSONL, [files] holds every other file by its
    path.  No poster is ever stored at FAILED_JSONL (lemma
    [target_path_is_not_the_log]); [file_at] gives the two parts as one
    file system. *)
Record World : Type := mk_world {
  files : gmap string bytes;        (* the files other than the log *)
  failure_log : string;             (* the text of FAILED_JSONL *)
  sem_value : nat;                  (* free slots of the semaphore *)
  log_script : list log_answer;     (* what the next appends to the log do *)
  requests : list string;           (* trace: URLs given to session.get *)
  acquisitions : nat;               (* trace: slots acquired so far *)
  recorder_calls : list failure_record  (* trace: calls of log_failure *)
}.

Definition set_files (f : gmap string bytes) (w : World) : World :=
  mk_world f (failure_log w) (sem_value w) (log_script w)
           (requests w) (acquisitions w) (recorder_calls w).

Definition set_sem (n : nat) (w : World) : World :=
  mk_world (files w) (failure_log w) n (log_script w)
           (requests w) (acquisitions w) (recorder_calls w).

Definition note_acquisition (w : World) : World :=
  mk_world (files w) (failure_log w) (sem_value w) (log_script w)
           (requests w) (S (acquisitions w)) (recorder_calls w).

Definition note_request (url : string) (w : World) : World :=
  mk_world (files w) (failure_log w) (sem_value w) (log_script w)
           (requests w ++ [url]) (acquisitions w) (recorder_calls w).

(** A call of the recorder: the call is traced and the head of the
    script is consumed. *)
Definition note_recorder_call (r : failure_record) (w : World) : World :=
  mk_world (files w) (failure_log w) (sem_value w) (tail (log_script w))
           (requests w) (acquisitions w) (recorder_calls w ++ [r]).

Definition append_log (text : string) (w : World) : World :=
  mk_world (files w) (failure_log w ++ text) (sem_value w) (log_script w)
           (requests w) (acquisitions w) (recorder_calls w).

(** ** Coroutines as state passing with exceptions *)

Inductive outcome (A : Type) : Type :=
| Returns (a : A)
| Raises (e : exn)
| Blocked.          (* waiting for a slot that never comes *)

Arguments Returns {A} a.
Arguments Raises {A} e.
Arguments Blocked {A}.

Definition M (A : Type) : Type := World -> World * outcome A.

Definition ret {A} (a : A) : M A := fun w => (w, Returns a).

Definition bind {A B} (m : M A) (k : A -> M B) : M B :=
  fun w =>
    match m w with
    | (w', Returns a) => k a w'
    | (w', Raises e) => (w', Raises e)
    | (w', Blocked) => (w', Blocked)
    end.

Declare Scope coroutine_scope.
Delimit Scope coroutine_scope with co.
Notation "x <- m ;; k" := (bind m (fun x => k))
  (at level 100, m at next level, right associativity) : coroutine_scope.
Notation "m ;;; k" := (bind m (fun _ => k))
  (at level 100, right associativity) : coroutine_scope.

(** [try: body except Exception as e: handler e]. *)
Definition try_except {A} (body : M A) (handler : exn -> M A) : M A :=
  fun w =>
    match body w with
    | (w', Raises e) => handler e w'
    | other => other
    end.

(** [async with sem: body] (line 71): wait for a free slot and take it,
    run the body, and give the slot back however the body ends. *)
Definition async_with_sem {A} (body : M A) : M A :=
  fun w =>
    match sem_value w with
    | O => (w, Blocked)
    | S free =>
        match body (note_acquisition (set_sem free w)) with
        | (w', Blocked) => (w', Blocked)
        | (w', result) => (set_sem (S (sem_value w')) w', result)
        end
    end.

(** ** Failure recorder (lines 40-54) *)

(** The call does what the script says for it.  When
    [aiofiles.open(FAILED_JSONL, "a")] raises, nothing has reached the
    file; when [f.write] or the close at the end of the [async with]
    raises, the first [written] characters of the line have; otherwise
    the whole line is appended.  Nothing is caught here.  A call is
    taken as one step: what two calls that overlap in time do to the
    file is not modelled. *)
Definition log_failure (title : string) (url : url_value) (reason : string)
    (tb : option string) : M unit :=
  fun w =>
    let record := mk_record title url reason tb in
    let w1 := note_recorder_call record w in
    match log_script w with
    | LogOpenRaises e :: _ => (w1, Raises e)
    | LogWriteRaises written e :: _ =>
        (append_log (substring 0 written (record_line record)) w1, Raises e)
    | _ => (append_log (record_line record) w1, Returns tt)
    end.

(** ** What the network and the disk answer to one fetch *)

Inductive read_result : Type :=
| ReadOk (content : bytes)
| ReadRaises (e : exn).

Inductive get_result : Type :=
| GetRaises (e : exn)                           (* connect failed *)
| GetResponse (status : Z) (body : read_result).

Inductive write_result : Type :=
| WriteOk
| OpenRaises (e : exn)                   (* the file was not created *)
| WriteRaises (written : nat) (e : exn). (* created, then cut short *)

Record Env : Type := mk_env {
  env_get : get_result;
  env_write : write_result
}.

(** ** Scheduler: [tqdm.gather] (line 105) *)

Section Scheduler.

Local Open Scope coroutine_scope.

(** The tasks awaited one after the other, as the list has them: each
    runs to its end before the next one starts, and the first exception
    ends the wait. *)
Fixpoint await_each {A} (tasks : list (M A)) : M (list A) :=
  match tasks with
  | [] => ret []
  | task :: rest =>
      r <- task ;;
      rs <- await_each rest ;;
      ret (r :: rs)
  end.

(** The result of task [i], when the tasks were run in the order [order]
    and gave the results [rs], one after the other. *)
Fixpoint result_of {A} (i : nat) (order : list nat) (rs : list A)
  : option A :=
  match order, rs with
  | j :: order', r :: rs' =>
      if (i =? j)%nat then Some r else result_of i order' rs'
  | _, _ => None
  end.

(** The results of [n] tasks by the index of their task; nothing when a
    task has no result. *)
Definition in_task_order {A} (order : list nat) (rs : list A) (n : nat)
  : option (list A) :=
  mapM (fun i => result_of i order rs) (seq 0 n).

(** [tqdm.gather] of the tasks.  All the tasks are started at once and the
    event loop decides in which order they get to run: [order] lists the
    tasks by their index in that order, and every statement about a run
    below is made for every such order.  Each task is taken as one step,
    so what two fetches do to one file between their awaits is not
    modelled.  The results come back in the order of the tasks, not of
    their completion (tqdm sorts them by index); the first exception ends
    the wait, with the tasks after it in [order] not yet run; and the
    wait does not end when a task is never run. *)
Definition gather {A} (order : list nat) (tasks : list (M A))
  : M (list A) :=
  fun w =>
    match await_each (omap (fun i => tasks !! i) order) w with
    | (w', Returns rs) =>
        match in_task_order order rs (length tasks) with
        | Some results => (w', Returns results)
        | None => (w', Blocked)
        end
    | (w', Raises e) => (w', Raises e)
    | (w', Blocked) => (w', Blocked)
    end.

End Scheduler.

(** ** Fetch worker (lines 56-89) and the run (lines 91-106) *)

(** [str(n)] for an [int]. *)
Definition str_of_int (n : Z) : string := NilZero.string_of_int (Z.to_int n).

(** [str(IMAGE_DIR / filename)]. *)
Definition path_join (dir name : string) : string := dir ++ "/" ++ name.

Definition startswith (s pre : string) : bool := String.prefix pre s.

(** [session.get(url)]: the request is traced; it raises or yields the
    response, whose status is known and whose body is still to be read. *)
Definition session_get (env : Env) (url : string) : M (Z * read_result) :=
  fun w =>
    let w1 := note_request url w in
    match env_get env with
    | GetRaises e => (w1, Raises e)
    | GetResponse status body => (w1, Returns (status, body))
    end.

(** [resp.read()]. *)
Definition resp_read (body : read_result) : M bytes :=
  fun w =>
    match body with
    | ReadOk content => (w, Returns content)
    | ReadRaises e => (w, Raises e)
    end.

(** [aiofiles.open(imagepath, "wb")] followed by [f.write(content)]
    (lines 78-79).  Opening creates or truncates the file. *)
Definition write_image (env : Env) (imagepath : string) (content : bytes)
  : M unit :=
  fun w =>
    match env_write env with
    | WriteOk => (set_files (<[imagepath := content]> (files w)) w, Returns tt)
    | OpenRaises e => (w, Raises e)
    | WriteRaises n e =>
        (set_files (<[imagepath := take n content]> (files w)) w, Raises e)
    end.

Section FetchWorker.

(** The score is a float that is only passed along. *)
Variable Score : Type.

Local Open Scope coroutine_scope.

(** The body of the [try] (lines 73-80). *)
Definition download (env : Env) (title url : string) (score : Score)
    (imagepath : string) : M (option (string * Score)) :=
  resp <- session_get env url ;;
  let (status, body) := (resp : Z * read_result) in
  if negb (status =? 200) then
    log_failure title (UrlStr url) ("http_status_" ++ str_of_int status) None ;;;
    ret None
  else
    content <- resp_read body ;;
    write_image env imagepath content ;;;
    ret (Some (imagepath, score)).

(** The two [except] clauses (lines 82-88), then the [return None] of
    line 89. *)
Definition on_error (title url : string) (e : exn)
  : M (option (string * Score)) :=
  match exn_class_of e with
  | ClientError | TimeoutError =>
      log_failure title (UrlStr url) (exn_name e) None ;;;
      ret None
  | OtherException =>
      log_failure title (UrlStr url) ("unexpected_" ++ exn_name e)
                  (Some (exn_traceback e)) ;;;
      ret None
  end.

Definition fetch_image (env : Env) (title : string) (url : url_value)
    (score : Score) : M (option (string * Score)) :=
  match url with
  | UrlNaN =>                                   (* pd.isna(url) *)
      log_failure title url "invalid_or_missing_url" None ;;;
      ret None
  | UrlStr u =>
      if negb (startswith u "http") then
        log_failure title url "invalid_or_missing_url" None ;;;
        ret None
      else
        let filename := sanitize_filename title DEFAULT_MAX_LEN in
        let imagepath := path_join IMAGE_DIR filename in
        async_with_sem
          (try_except (download env title u score imagepath)
                      (on_error title u))
  end.

(** A row of the table, with what the network and the disk answer to its
    fetch.  The title is a [str] and the url a [str] or NaN, as pandas
    reads a column of text; a title that is not a [str] would make
    line 68 raise outside the [try], which these rows leave out. *)
Record Row : Type := mk_row {
  Title : string;
  Poster : url_value;
  IMDB_Score : Score;
  answers : Env
}.

Definition fetch_row (row : Row) : M (option (string * Score)) :=
  fetch_image (answers row) (Title row) (Poster row) (IMDB_Score row).

(** [[r for r in ... if r is not None]]. *)
Definition not_none {A} (rs : list (option A)) : list A := omap id rs.

(** [scrape_all] (lines 91-106) under the schedule [order]: a fresh
    semaphore with all its slots free, one task per row, and of what
    [tqdm.gather] returns the results that are not [None]. *)
Definition scrape_all (order : list nat) (df : list Row)
  : M (list (string * Score)) :=
  fun w =>
    let sem := set_sem CONCURRENCY w in
    (rs <- gather order (map fetch_row df) ;;
     ret (not_none rs)) sem.

End FetchWorker.

Arguments fetch_image {Score} env title url score.
Arguments download {Score} env title url score imagepath.
Arguments on_error {Score} title url e.
Arguments mk_row {Score} Title Poster IMDB_Score answers.
Arguments Title {Score} r.
Arguments Poster {Score} r.
Arguments IMDB_Score {Score} r.
Arguments answers {Score} r.
Arguments fetch_row {Score} row.
Arguments scrape_all {Score} order df.

(** A world with nothing on disk, an empty log and a log that can always
    be opened. *)
Definition empty_world (slots : nat) : World :=
  mk_world ∅ "" slots [] [] 0 [].

(** ** Reading the log back: RFC 8259, for objects whose members are scalars

    This is the reader that the format of the log (one JSON text per
    line) is measured against; it is not part of scrape.py.  Decoded
    strings are lists of code points, since an escape may name a
    code point above 255. *)

Inductive json_scalar : Type :=
| JNull
| JTrue
| JFalse
| JNumber (text : string)
| JString (code_points : list nat).

Definition code_points (s : string) : list nat :=
  map nat_of_ascii (list_ascii_of_string s).

Definition is_ws (c : ascii) : bool :=
  let n := nat_of_ascii c in
  (n =? 32)%nat || (n =? 9)%nat || (n =? 10)%nat || (n =? 13)%nat.

Fixpoint skip_ws (s : string) : string :=
  match s with
  | String c rest => if is_ws c then skip_ws rest else s
  | EmptyString => s
  end.

Definition is_digit (c : ascii) : bool :=
  let n := nat_of_ascii c in ((48 <=? n) && (n <=? 57))%nat.

Definition hex_value (c : ascii) : option nat :=
  let n := nat_of_ascii c in
  if ((48 <=? n) && (n <=? 57))%nat then Some (n - 48)%nat
  else if ((97 <=? n) && (n <=? 102))%nat then Some (n - 87)%nat
  else if ((65 <=? n) && (n <=? 70))%nat then Some (n - 55)%nat
  else None.

(** The character a two-character escape stands for. *)
Definition short_escape (c : ascii) : option nat :=
  let n := nat_of_ascii c in
  if (n =? 34)%nat then Some 34%nat          (* quote *)
  else if (n =? 92)%nat then Some 92%nat     (* backslash *)
  else if (n =? 47)%nat then Some 47%nat     (* slash *)
  else if (n =? 98)%nat then Some 8%nat      (* b *)
  else if (n =? 102)%nat then Some 12%nat    (* f *)
  else if (n =? 110)%nat then Some 10%nat    (* n *)
  else if (n =? 114)%nat then Some 13%nat    (* r *)
  else if (n =? 116)%nat then Some 9%nat     (* t *)
  else None.

Definition hex4 (a b c d : ascii) : option nat :=
  match hex_value a, hex_value b, hex_value c, hex_value d with
  | Some x, Some y, Some z, Some t =>
      Some (((x * 16 + y) * 16 + z) * 16 + t)%nat
  | _, _, _, _ => None
  end.

Definition push (n : nat) (r : option (list nat * string))
  : option (list nat * string) :=
  match r with
  | Some (l, rest) => Some (n :: l, rest)
  | None => None
  end.

(** The characters of a string after its opening quote, up to and
    including the closing quote. *)
Fixpoint parse_chars (s : string) : option (list nat * string) :=
  match s with
  | EmptyString => None
  | String c r =>
      let n := nat_of_ascii c in
      if (n =? 34)%nat then Some ([], r)
      else if (n =? 92)%nat then
        match r with
        | String e r1 =>
            match short_escape e with
            | Some d => push d (parse_chars r1)
            | None =>
                if (nat_of_ascii e =? 117)%nat then    (* u *)
                  match r1 with
                  | String h1 (String h2 (String h3 (String h4 r2))) =>
                      match hex4 h1 h2 h3 h4 with
                      | Some v => push v (parse_chars r2)
                      | None => None
                      end
                  | _ => None
                  end
                else None
            end
        | EmptyString => None
        end
      else if (n <? 32)%nat then None
      else push n (parse_chars r)
  end.

Fixpoint span_digits (s : string) : string * string :=
  match s with
  | String c rest =>
      if is_digit c then
        let (ds, r) := span_digits rest in (String c ds, r)
      else (EmptyString, s)
  | EmptyString => (EmptyString, s)
  end.

(** One or more digits. *)
Definition digits1 (s : string) : option (string * string) :=
  match span_digits s with
  | (EmptyString, _) => None
  | (ds, r) => Some (ds, r)
  end.

Definition parse_frac (s : string) : option (string * string) :=
  match s with
  | String "." r =>
      match digits1 r with
      | Some (ds, r') => Some (String "." ds, r')
      | None => None
      end
  | _ => Some (EmptyString, s)
  end.

Definition parse_exp (s : string) : option (string * string) :=
  match s with
  | String c r =>
      if ((nat_of_ascii c =? 101) || (nat_of_ascii c =? 69))%nat then
        let (sign, r1) :=
          match r with
          | String "+" r1 => ("+", r1)
          | String "-" r1 => ("-", r1)
          | _ => ("", r)
          end in
        match digits1 r1 with
        | Some (ds, r') => Some (String c (sign ++ ds), r')
        | None => None
        end
      else Some (EmptyString, s)
  | EmptyString => Some (EmptyString, s)
  end.

Definition parse_int (s : string) : option (string * string) :=
  match s with
  | String "0" r => Some ("0", r)
  | _ => digits1 s
  end.

Definition parse_number (s : string) : option (string * string) :=
  let (sign, s1) :=
    match s with
    | String "-" r => ("-", r)
    | _ => ("", s)
    end in
  match parse_int s1 with
  | Some (i, r1) =>
      match parse_frac r1 with
      | Some (f, r2) =>
          match parse_exp r2 with
          | Some (e, r3) => Some (sign ++ i ++ f ++ e, r3)
          | None => None
          end
      | None => None
      end
  | None => None
  end.

(** [s] without the prefix [pre]. *)
Fixpoint strip (pre s : string) : option string :=
  match pre, s with
  | EmptyString, _ => Some s
  | String a pre', String b s' =>
      if Ascii.eqb a b then strip pre' s' else None
  | String _ _, EmptyString => None
  end.

Definition parse_scalar (s : string) : option (json_scalar * string) :=
  match s with
  | EmptyString => None
  | String c r =>
      let n := nat_of_ascii c in
      if (n =? 34)%nat then
        match parse_chars r with
        | Some (l, rest) => Some (JString l, rest)
        | None => None
        end
      else if (n =? 110)%nat then option_map (pair JNull) (strip "null" s)
      else if (n =? 116)%nat then option_map (pair JTrue) (strip "true" s)
      else if (n =? 102)%nat then option_map (pair JFalse) (strip "false" s)
      else
        match parse_number s with
        | Some (text, rest) => Some (JNumber text, rest)
        | None => None
        end
  end.

(** One member, [string : value], with the white space around it. *)
Definition parse_member (s : string)
  : option ((list nat * json_scalar) * string) :=
  match skip_ws s with
  | String c r =>
      if (nat_of_ascii c =? 34)%nat then
        match parse_chars r with
        | Some (key, r1) =>
            match skip_ws r1 with
            | String ":" r2 =>
                match parse_scalar (skip_ws r2) with
                | Some (v, r3) => Some ((key, v), skip_ws r3)
                | None => None
                end
            | _ => None
            end
        | None => None
        end
      else None
  | EmptyString => None
  end.

(** The members after the first, up to the closing brace. *)
Fixpoint parse_more (fuel : nat) (s : string)
  : option (list (list nat * json_scalar) * string) :=
  match s with
  | String "}" rest => Some ([], rest)
  | String "," rest =>
      match fuel with
      | O => None
      | S fuel' =>
          match parse_member rest with
          | Some (m, r) =>
              match parse_more fuel' r with
              | Some (ms, r') => Some (m :: ms, r')
              | None => None
              end
          | None => None
          end
      end
  | _ => None
  end.

Definition parse_object (s : string)
  : option (list (list nat * json_scalar) * string) :=
  match skip_ws s with
  | String "{" r =>
      match skip_ws r with
      | String "}" rest => Some ([], rest)
      | _ =>
          match parse_member r with
          | Some (m, r1) =>
              match parse_more (String.length r1) r1 with
              | Some (ms, r2) => Some (m :: ms, r2)
              | None => None
              end
          | None => None
          end
      end
  | _ => None
  end.

(** A line of the log is a JSON text when it is one object and nothing
    but white space follows. *)
Definition parse_line (line : string)
  : option (list (list nat * json_scalar)) :=
  match parse_object line with
  | Some (members, rest) =>
      match skip_ws rest with
      | EmptyString => Some members
      | _ => None
      end
  | None => None
  end.

(** [c] occurs in [s]. *)
Fixpoint occurs (c : ascii) (s : string) : bool :=
  match s with
  | EmptyString => false
  | String d rest => Ascii.eqb c d || occurs c rest
  end.

(** What a reader should get back for a value of the record: nothing
    for the float NaN, which JSON has no notation for. *)
Definition read_back (v : py_value) : option json_scalar :=
  match v with
  | PyNone => Some JNull
  | PyStr s => Some (JString (code_points s))
  | PyNaN => None
  end.

Fixpoint read_back_items (items : list (string * py_value))
  : option (list (list nat * json_scalar)) :=
  match items with
  | [] => Some []
  | (k, v) :: rest =>
      match read_back v, read_back_items rest with
      | Some x, Some xs => Some ((code_points k, x) :: xs)
      | _, _ => None
      end
  end.

(** ** What the validation of line 64 rejects *)

Definition url_invalid (url : url_value) : bool :=
  match url with
  | UrlNaN => true
  | UrlStr u => negb (startswith u "http")
  end.

(** How many of the urls pass the validation. *)
Fixpoint usable_urls (urls : list url_value) : nat :=
  match urls with
  | [] => 0%nat
  | url :: rest =>
      ((if url_invalid url then 0 else 1) + usable_urls rest)%nat
  end.

(** The path a title is stored at (lines 68-69). *)
Definition target_path (title : string) : string :=
  path_join IMAGE_DIR (sanitize_filename title DEFAULT_MAX_LEN).

(** The exception the next call of the recorder ends with, if any. *)
Definition next_append_raises (w : World) : option exn :=
  match log_script w with
  | LogOpenRaises e :: _ => Some e
  | LogWriteRaises _ e :: _ => Some e
  | _ => None
  end.

(** What reaches the log of [line] when the next call of the recorder
    raises: nothing when the open raises, the part written when the
    write or the close does. *)
Definition next_append_cut (w : World) (line : string) : string :=
  match log_script w with
  | LogWriteRaises written _ :: _ => substring 0 written line
  | _ => ""
  end.

(** The exception an answer of the log stands for. *)
Definition raised_of (a : log_answer) : option exn :=
  match a with
  | LogOk => None
  | LogOpenRaises e => Some e
  | LogWriteRaises _ e => Some e
  end.

(** Every coming append to the log goes through. *)
Definition log_always_opens (w : World) : Prop :=
  Forall (fun a => a = LogOk) (log_script w).

(** The two parts of the world as one file system: the content of the
    file at a path. *)
Inductive file_content : Type :=
| Binary (content : bytes)
| Text (content : string).

Definition file_at (w : World) (path : string) : option file_content :=
  if String.eqb path FAILED_JSONL then Some (Text (failure_log w))
  else option_map Binary (files w !! path).

(** ** The schedule of a run *)

(** The rows in the order their fetches run. *)
Definition rows_in {A} (order : list nat) (df : list A) : list A :=
  omap (fun i => df !! i) order.

(** A schedule of a table runs every row once. *)
Definition schedule_of {Score} (df : list (Row Score)) (order : list nat)
  : Prop :=
  Permutation order (seq 0 (length df)).

(** ** How a row ends *)





(** The pieces of text one after the other. *)
Fixpoint join (chunks : list string) : string :=
  match chunks with
  | [] => ""
  | c :: cs => c ++ join cs
  end.


(** ** The exception a fetch has to handle *)

(** What the request, the read of the body or the write of the file
    raises inside the [try], in the order the code reaches them; nothing
    when the status is not 200, since the code then neither reads nor
    writes. *)
Definition raised_by (env : Env) : option exn :=
  match env_get env with
  | GetRaises e => Some e
  | GetResponse status body =>
      if negb (status =? 200) then None
      else
        match body with
        | ReadRaises e => Some e
        | ReadOk _ =>
            match env_write env with
            | WriteOk => None
            | OpenRaises e => Some e
            | WriteRaises _ e => Some e
            end
        end
  end.

(** The record the two [except] clauses make of an exception
    (lines 82-88). *)
Definition error_record (title u : string) (e : exn) : failure_record :=
  match exn_class_of e with
  | ClientError | TimeoutError =>
      mk_record title (UrlStr u) (exn_name e) None
  | OtherException =>
      mk_record title (UrlStr u) ("unexpected_" ++ exn_name e)
                (Some (exn_traceback e))
  end.

(** A disk that takes [written] bytes of the poster and then fails. *)
Definition disk_full (written : nat) : Env :=
  mk_env (GetResponse 200 (ReadOk [Byte.xff; Byte.xd8; Byte.xff]))
         (WriteRaises written
            (mk_exn "OSError" OtherException "Traceback: No space left")).

(** ** Sample answers and worlds for the examples *)

Definition os_error : exn :=
  mk_exn "OSError" OtherException "Traceback (most recent call last): OSError".

Definition connect_error : exn :=
  mk_exn "ClientConnectorError" ClientError "".

Definition not_found : Env := mk_env (GetResponse 404 (ReadOk [])) WriteOk.

Definition poster_bytes : bytes := [Byte.xff; Byte.xd8; Byte.xff].

Definition ok_poster : Env :=
  mk_env (GetResponse 200 (ReadOk poster_bytes)) WriteOk.

Definition no_route : Env := mk_env (GetRaises connect_error) WriteOk.

(** A world whose log cannot be opened the next [fails] times. *)
Definition log_fails (fails slots : nat) : World :=
  mk_world ∅ "" slots (repeat (LogOpenRaises os_error) fails) [] 0 [].


(** Three rows: one that downloads, one without a url, one that the
    server does not know. *)
Definition sample_rows : list (Row Z) :=
  [ mk_row "Toy Story" (UrlStr "http://x/a.jpg") 83 ok_poster;
    mk_row "Lost" UrlNaN 61 ok_poster;
    mk_row "Gone" (UrlStr "http://x/b.jpg") 70 not_found ].

(** ** Proof steps shared by the lemmas on the fetch worker *)

(** Unfold a fetch and split on everything the world and the answers
    leave open. *)
Ltac unfold_fetch :=
  unfold fetch_image, async_with_sem, try_except, download, on_error,
    session_get, resp_read, write_image, log_failure, bind, ret.

Ltac split_cases :=
  repeat match goal with
    | |- context [match ?x with _ => _ end] =>
        lazymatch x with
        | context [match _ with _ => _ end] => fail
        | _ => destruct x eqn:?
        end; simpl in *; try discriminate
    end.

(** * Strings *)

Lemma append_nil_r (s : string) : s ++ "" = s.
Proof. induction s as [|c s IH]; simpl; [reflexivity | now rewrite IH]. Qed.

Lemma append_assoc (a b c : string) : (a ++ b) ++ c = a ++ (b ++ c).
Proof. induction a as [|x a IH]; simpl; [reflexivity | now rewrite IH]. Qed.

Lemma length_append (a b : string) :
  String.length (a ++ b) = (String.length a + String.length b)%nat.
Proof. induction a as [|x a IH]; simpl; [reflexivity | now rewrite IH]. Qed.

Lemma length_prefix_le (k : nat) (s : string) :
  (String.length (substring 0 k s) <= k)%nat.
Proof.
  revert s; induction k as [|k IH]; intros [|c s]; simpl; try lia.
  specialize (IH s); lia.
Qed.

Lemma prefix_clamp (k : nat) (s : string) :
  substring 0 (Nat.min k (String.length s)) s = substring 0 k s.
Proof.
  revert s; induction k as [|k IH]; intros [|c s]; simpl; try reflexivity.
  now rewrite IH.
Qed.

Lemma all_safe_prefix (k : nat) (s : string) :
  all_safe s = true -> all_safe (substring 0 k s) = true.
Proof.
  revert s; induction k as [|k IH]; intros [|c s]; simpl; try reflexivity.
  intros H; apply andb_true_iff in H as [Hc Hs].
  now rewrite Hc, IH.
Qed.

(** * Filename sanitizer *)

Lemma all_safe_sub_runs (b : bool) (name : string) :
  all_safe (sub_runs b name) = true.
Proof.
  revert b; induction name as [|c name IH]; intros b; simpl; [reflexivity|].
  destruct (is_safe c) eqn:Hc; simpl.
  - now rewrite Hc, IH.
  - destruct b; simpl; now rewrite ?IH.
Qed.

(** Inside a match the scan drops the rest of the run and goes on after
    it as a fresh scan. *)
Lemma sub_runs_split (name : string) :
  Collapsed name (sub_runs false name) /\
  exists u s, name = u ++ s /\ all_unsafe u = true /\ run_ends_at s = true /\
              sub_runs true name = sub_runs false s /\
              Collapsed s (sub_runs false s).
Proof.
  induction name as [|c name [IH1 (u & s & Hn & Hu & Hs & Hsub & Hcol)]].
  - split; [constructor|].
    exists "", ""; repeat split; constructor.
  - simpl. destruct (is_safe c) eqn:Hc.
    + split; [now constructor|].
      exists "", (String c name); simpl; rewrite Hc.
      repeat split; now constructor.
    + subst name.
      assert (Hrun : Collapsed (String c (u ++ s))
                               (String "_" (sub_runs false s))).
      { change (String c (u ++ s)) with (String c u ++ s).
        apply Collapsed_run; simpl; try easy. now rewrite Hc, Hu. }
      split; [now rewrite Hsub|].
      exists (String c u), s; simpl; rewrite Hc, Hu.
      repeat split; assumption.
Qed.

Lemma sub_runs_per_char (b : bool) (name : string) :
  no_adjacent_unsafe name = true ->
  (b = true -> run_ends_at name = true) ->
  sub_runs b name = replace_each name.
Proof.
  revert b; induction name as [|c name IH]; intros b Hadj Hb; simpl;
    [reflexivity|].
  simpl in Hadj; apply andb_true_iff in Hadj as [Hc Hadj].
  destruct (is_safe c) eqn:Hsafe.
  - f_equal; apply IH; [assumption | discriminate].
  - destruct b; [simpl in Hb; rewrite Hsafe in Hb; now specialize (Hb eq_refl)|].
    f_equal; apply IH; [assumption | intros _; exact Hc].
Qed.

Lemma slice_to_nonneg (s : string) (n : Z) :
  0 <= n -> slice_to s n = substring 0 (Z.to_nat n) s.
Proof.
  intros Hn; unfold slice_to.
  destruct (Z.ltb_spec n 0) as [?|_]; [lia|].
  rewrite <- (prefix_clamp (Z.to_nat n) s); f_equal; lia.
Qed.

(** C2, as the code has it: every maximal run of characters outside
    [A-Za-z0-9._-] becomes one underscore; for a length that is not
    negative the result is cut to that many characters; ".jpg" is
    appended; the name is at most [max_len + 4] long and its stem has
    only characters of the class.  Where no two characters outside the
    class are neighbours, the result is the character-by-character
    replacement.  The function is total. *)
Theorem sanitize_filename_collapses_runs (name : string) (max_len : Z) :
  0 <= max_len ->
  exists stem,
    sanitize_filename name max_len = stem ++ ".jpg"
    /\ Collapsed name (SAFE_CHARS_sub name)
    /\ stem = substring 0 (Z.to_nat max_len) (SAFE_CHARS_sub name)
    /\ all_safe stem = true
    /\ Z.of_nat (String.length (sanitize_filename name max_len)) <= max_len + 4
    /\ (no_adjacent_unsafe name = true ->
        sanitize_filename name max_len = sanitize_per_char name max_len).
Proof.
  intros Hn.
  exists (substring 0 (Z.to_nat max_len) (SAFE_CHARS_sub name)).
  unfold sanitize_filename; rewrite slice_to_nonneg by assumption.
  repeat split.
  - apply sub_runs_split.
  - apply all_safe_prefix, all_safe_sub_runs.
  - rewrite length_append; simpl.
    pose proof (length_prefix_le (Z.to_nat max_len) (SAFE_CHARS_sub name)).
    lia.
  - intros Hadj; unfold sanitize_per_char, SAFE_CHARS_sub.
    rewrite (sub_runs_per_char false name Hadj); [reflexivity | discriminate].
Qed.

Lemma sanitize_filename_collapses_runs_witness :
  exists stem,
    sanitize_filename "Toy  Story (1995)" 8 = stem ++ ".jpg"
    /\ Collapsed "Toy  Story (1995)" (SAFE_CHARS_sub "Toy  Story (1995)")
    /\ stem = substring 0 (Z.to_nat 8) (SAFE_CHARS_sub "Toy  Story (1995)")
    /\ all_safe stem = true
    /\ Z.of_nat (String.length (sanitize_filename "Toy  Story (1995)" 8)) <= 8 + 4
    /\ (no_adjacent_unsafe "Toy  Story (1995)" = true ->
        sanitize_filename "Toy  Story (1995)" 8
        = sanitize_per_char "Toy  Story (1995)" 8).
Proof. apply (sanitize_filename_collapses_runs "Toy  Story (1995)" 8); lia. Defined.

(** C2 as worded fails twice: two neighbouring spaces give one
    underscore, not two; and with a negative length the slice counts from
    the end, so the name is longer than [max_len + 4]. *)
Lemma sanitize_filename_not_per_char :
  sanitize_filename "a  b" 100 = "a_b.jpg"
  /\ sanitize_per_char "a  b" 100 = "a__b.jpg"
  /\ sanitize_filename "a  b" 100 <> sanitize_per_char "a  b" 100
  /\ sanitize_filename "abcdefgh" (-1) = "abcdefg.jpg"
  /\ ~ (Z.of_nat (String.length (sanitize_filename "abcdefgh" (-1))) <= -1 + 4).
Proof.
  split; [reflexivity|]. split; [reflexivity|].
  split; [vm_compute; discriminate|].
  split; [reflexivity|].
  vm_compute; intros H; now apply H.
Qed.

(** * Failure recorder *)

Lemma log_failure_run (title : string) (url : url_value) (reason : string)
    (tb : option string) (w : World) :
  log_failure title url reason tb w =
  let r := mk_record title url reason tb in
  match next_append_raises w with
  | Some e =>
      (append_log (next_append_cut w (record_line r)) (note_recorder_call r w),
       Raises e)
  | None => (append_log (record_line r) (note_recorder_call r w), Returns tt)
  end.
Proof.
  unfold log_failure, next_append_raises, next_append_cut, append_log.
  destruct w as [f lg sv script rq aq rc]; simpl.
  destruct script as [|[|e|n e] l]; simpl; try reflexivity.
  now rewrite append_nil_r.
Qed.


(** No poster is stored at the path of the log. *)
Lemma target_path_is_not_the_log (title : string) :
  target_path title <> FAILED_JSONL.
Proof. unfold target_path, path_join, IMAGE_DIR, FAILED_JSONL; simpl; congruence. Qed.

(** * Fetch worker *)

(** The slot count after a fetch is the count before it, however the
    fetch ends. *)
Lemma fetch_image_sem {Score} (env : Env) (title : string) (url : url_value)
    (score : Score) (w : World) :
  sem_value (fst (fetch_image env title url score w)) = sem_value w.
Proof.
  unfold_fetch. destruct w as [f lg sv ls rq aq rc]; simpl.
  destruct url as [|u]; simpl; split_cases; reflexivity.
Qed.

(** C7: a fetch that took a slot has given it back when it ends, whether
    it returns a pair, returns nothing after a logged failure, or ends
    with an exception: the count of free slots is what it was. *)
Theorem fetch_image_releases_slot {Score} (env : Env) (title : string)
    (url : url_value) (score : Score) (w w' : World)
    (out : outcome (option (string * Score))) :
  fetch_image env title url score w = (w', out) ->
  acquisitions w' = S (acquisitions w) ->
  out <> Blocked /\ sem_value w' = sem_value w.
Proof.
  intros Hrun Hacq; split.
  - revert Hrun Hacq. unfold_fetch.
    destruct w as [f lg sv ls rq aq rc]; simpl.
    destruct url as [|u]; simpl; split_cases;
      intros Hrun; inversion Hrun; subst; simpl; intros; try discriminate; lia.
  - pose proof (fetch_image_sem env title url score w) as Hsem.
    now rewrite Hrun in Hsem.
Qed.

(** C10: the image file is touched only after a response with status 200
    whose body was read in full; when the request or the read of the body
    raises, the files are what they were. *)
Theorem network_error_leaves_files {Score} (env : Env) (title : string)
    (url : url_value) (score : Score) (w w' : World)
    (out : outcome (option (string * Score))) :
  fetch_image env title url score w = (w', out) ->
  (files w' <> files w ->
   url_invalid url = false /\
   exists content, env_get env = GetResponse 200 (ReadOk content))
  /\ (forall e,
        env_get env = GetRaises e \/
        (exists status, env_get env = GetResponse status (ReadRaises e)) ->
        files w' = files w).
Proof.
  intros Hrun.
  assert (Hopen : files w' = files w \/
                  (url_invalid url = false /\
                   exists content, env_get env = GetResponse 200 (ReadOk content))).
  { revert Hrun. unfold_fetch.
    destruct w as [f lg sv ls rq aq rc]; simpl.
    destruct url as [|u]; simpl; split_cases;
      intros Hrun; inversion Hrun; subst; simpl; auto;
      right; (split; [reflexivity|]);
      match goal with
      | H : negb (?s =? 200) = false |- _ =>
          apply negb_false_iff, Z.eqb_eq in H; subst s
      end; eauto. }
  split.
  - intros Hne; destruct Hopen as [Heq|Hok]; [contradiction | exact Hok].
  - intros e He; destruct Hopen as [Heq|[_ [content Hok]]]; [exact Heq|].
    rewrite Hok in He; destruct He as [He|[status He]]; discriminate.
Qed.

Lemma fetch_image_releases_slot_witness :
  snd (fetch_image not_found "t" (UrlStr "http://x") 7 (log_fails 2 1))
    <> Blocked
  /\ sem_value (fst (fetch_image not_found "t" (UrlStr "http://x") 7
                                 (log_fails 2 1)))
     = sem_value (log_fails 2 1).
Proof.
  apply (fetch_image_releases_slot not_found "t" (UrlStr "http://x") 7
           (log_fails 2 1)
           (fst (fetch_image not_found "t" (UrlStr "http://x") 7 (log_fails 2 1)))
           (snd (fetch_image not_found "t" (UrlStr "http://x") 7 (log_fails 2 1))));
    reflexivity.
Defined.

Lemma network_error_leaves_files_witness :
  files (fst (fetch_image no_route "t" (UrlStr "http://x") 7 (empty_world 1)))
  = files (empty_world 1).
Proof.
  apply (proj2 (network_error_leaves_files no_route "t" (UrlStr "http://x") 7
                  (empty_world 1)
                  (fst (fetch_image no_route "t" (UrlStr "http://x") 7
                                    (empty_world 1)))
                  (snd (fetch_image no_route "t" (UrlStr "http://x") 7
                                    (empty_world 1)))
                  eq_refl) connect_error).
  left; reflexivity.
Defined.

(** A fetch that fails the validation is one call of the recorder. *)
Lemma skipped_fetch_run {Score} (env : Env) (title : string)
    (url : url_value) (score : Score) (w : World) :
  url_invalid url = true ->
  fetch_image env title url score w =
  let r := mk_record title url "invalid_or_missing_url" None in
  match next_append_raises w with
  | Some e =>
      (append_log (next_append_cut w (record_line r)) (note_recorder_call r w),
       Raises e)
  | None => (append_log (record_line r) (note_recorder_call r w), Returns None)
  end.
Proof.
  intros Hbad.
  assert (Hrun : fetch_image env title url score w =
                 bind (log_failure title url "invalid_or_missing_url" None)
                      (fun _ => ret None) w).
  { unfold fetch_image. destruct url as [|u]; [reflexivity|].
    simpl in Hbad; now rewrite Hbad. }
  rewrite Hrun; unfold bind, ret; rewrite log_failure_run; simpl.
  now destruct (next_append_raises w).
Qed.

(** C3, as the code has it: a row whose url is missing, empty or does not
    start with "http" makes exactly one call of the recorder, with the
    reason "invalid_or_missing_url"; no request is made and no slot is
    taken.  When the append succeeds the fetch returns no pair and the
    log has one more line; when the append raises, the exception leaves
    the fetch, and the log has what was written of the line. *)
Theorem invalid_url_is_skipped {Score} (env : Env) (title : string)
    (url : url_value) (score : Score) (w : World) :
  url_invalid url = true ->
  let w' := fst (fetch_image env title url score w) in
  let out := snd (fetch_image env title url score w) in
  let r := mk_record title url "invalid_or_missing_url" None in
  recorder_calls w' = (recorder_calls w ++ [r])%list
  /\ requests w' = requests w
  /\ acquisitions w' = acquisitions w
  /\ sem_value w' = sem_value w
  /\ files w' = files w
  /\ match next_append_raises w with
     | None =>
         out = Returns None /\ failure_log w' = failure_log w ++ record_line r
     | Some e =>
         out = Raises e
         /\ failure_log w' = failure_log w ++ next_append_cut w (record_line r)
     end.
Proof.
  intros Hbad; simpl.
  rewrite (skipped_fetch_run env title url score w Hbad); simpl.
  destruct (next_append_raises w); simpl; repeat split; reflexivity.
Qed.

Lemma invalid_url_is_skipped_witness :
  let w := empty_world 1 in
  let w' := fst (fetch_image ok_poster "t" (UrlStr "not-a-url") 7 w) in
  let out := snd (fetch_image ok_poster "t" (UrlStr "not-a-url") 7 w) in
  let r := mk_record "t" (UrlStr "not-a-url") "invalid_or_missing_url" None in
  recorder_calls w' = (recorder_calls w ++ [r])%list
  /\ requests w' = requests w
  /\ acquisitions w' = acquisitions w
  /\ sem_value w' = sem_value w
  /\ files w' = files w
  /\ out = Returns None /\ failure_log w' = failure_log w ++ record_line r.
Proof.
  exact (invalid_url_is_skipped ok_poster "t" (UrlStr "not-a-url") 7
           (empty_world 1) eq_refl).
Defined.

(** C3 as worded fails when the log cannot be opened: the row has no
    url, and the fetch ends with the exception instead of returning. *)
Lemma invalid_url_fetch_can_raise :
  url_invalid UrlNaN = true
  /\ snd (fetch_image ok_poster "t" UrlNaN 7 (log_fails 1 1)) = Raises os_error
  /\ snd (fetch_image ok_poster "t" UrlNaN 7 (log_fails 1 1)) <> Returns None.
Proof. repeat split; [vm_compute; discriminate]. Qed.

(** C4, as the code has it: a response whose status is not 200 never
    yields a pair and never touches a file; and when the append to the
    log succeeds, the fetch returns no pair after one call of the
    recorder, which adds the one line with the reason
    "http_status_<code>". *)
Theorem bad_status_is_logged {Score} (env : Env) (title u : string)
    (score : Score) (w : World) (status : Z) (body : read_result) :
  startswith u "http" = true ->
  env_get env = GetResponse status body ->
  status <> 200 ->
  (0 < sem_value w)%nat ->
  let w' := fst (fetch_image env title (UrlStr u) score w) in
  let out := snd (fetch_image env title (UrlStr u) score w) in
  let r := mk_record title (UrlStr u) ("http_status_" ++ str_of_int status)
                     None in
  files w' = files w
  /\ (forall entry, out <> Returns (Some entry))
  /\ requests w' = (requests w ++ [u])%list
  /\ (next_append_raises w = None ->
      out = Returns None
      /\ recorder_calls w' = (recorder_calls w ++ [r])%list
      /\ failure_log w' = failure_log w ++ record_line r).
Proof.
  intros Hurl Hget Hstatus Hfree; simpl.
  apply Z.eqb_neq in Hstatus.
  unfold next_append_raises. unfold_fetch.
  rewrite Hurl, Hget.
  destruct w as [f lg [|free] script rq aq rc]; simpl in *; [lia|].
  rewrite Hstatus; simpl.
  destruct script as [|[|e|n e] rest]; simpl;
    try (repeat split; intros; try reflexivity; congruence);
    destruct (exn_class_of e); simpl;
    destruct rest as [|[|e'|n' e'] rest']; simpl;
    repeat split; intros; try reflexivity; congruence.
Qed.

Lemma bad_status_is_logged_witness :
  let w := empty_world 1 in
  let w' := fst (fetch_image not_found "t" (UrlStr "http://x") 7 w) in
  let out := snd (fetch_image not_found "t" (UrlStr "http://x") 7 w) in
  let r := mk_record "t" (UrlStr "http://x") "http_status_404" None in
  files w' = files w
  /\ (forall entry, out <> Returns (Some entry))
  /\ requests w' = (requests w ++ ["http://x"])%list
  /\ (next_append_raises w = None ->
      out = Returns None
      /\ recorder_calls w' = (recorder_calls w ++ [r])%list
      /\ failure_log w' = failure_log w ++ record_line r).
Proof.
  apply (bad_status_is_logged not_found "t" "http://x" 7 (empty_world 1)
           404 (ReadOk [])); [reflexivity | reflexivity | discriminate |].
  simpl; lia.
Defined.

(** C4 as worded fails when the first append raises: the exception is
    caught by the second handler, the recorder is called again, and the
    line that reaches the log has the reason "unexpected_OSError". *)
Lemma bad_status_reason_can_differ :
  let run := fetch_image not_found "t" (UrlStr "http://x") 7 (log_fails 1 1) in
  snd run = Returns None
  /\ failure_log (fst run)
     = record_line (mk_record "t" (UrlStr "http://x") "unexpected_OSError"
                              (Some (exn_traceback os_error)))
  /\ failure_log (fst run)
     <> record_line (mk_record "t" (UrlStr "http://x") "http_status_404" None)
  /\ length (recorder_calls (fst run)) = 2%nat.
Proof.
  split; [reflexivity|]. split; [reflexivity|].
  split; [vm_compute; discriminate | reflexivity].
Qed.


(** The answers of the log a fetch has used up are the first ones, at
    most two of them. *)
Lemma fetch_image_script {Score} (env : Env) (title : string)
    (url : url_value) (score : Score) (w : World) :
  exists used,
    (used <= 2)%nat
    /\ log_script (fst (fetch_image env title url score w))
       = drop used (log_script w).
Proof.
  unfold_fetch. destruct w as [f lg sv script rq aq rc]; simpl.
  destruct url as [|u]; simpl; split_cases;
    first [ exists 0%nat; split; [lia | reflexivity]
          | exists 1%nat; split; [lia | reflexivity]
          | exists 2%nat; split; [lia | reflexivity] ].
Qed.

(** Nothing but the recorder makes a fetch raise: the exception is the
    one of the first append when the row fails the validation or the
    [try] raised, and the one of the second append when the first was
    made in the [try] and raised. *)
Lemma fetch_image_raises {Score} (env : Env) (title : string)
    (url : url_value) (score : Score) (w : World) (e : exn) :
  snd (fetch_image env title url score w) = Raises e ->
  exists a, In a (take 2 (log_script w)) /\ raised_of a = Some e.
Proof.
  unfold_fetch. destruct w as [f lg sv script rq aq rc]; simpl.
  destruct url as [|u]; simpl; split_cases;
    intros Hrun; inversion Hrun; subst;
    first [ eexists; split; [left; reflexivity | reflexivity]
          | eexists; split; [right; left; reflexivity | reflexivity] ].
Qed.



(** A fetch returns the pair of a row that downloads. *)
Lemma fetch_image_stores {Score} (env : Env) (title u : string)
    (score : Score) (content : bytes) (w : World) :
  startswith u "http" = true ->
  env_get env = GetResponse 200 (ReadOk content) ->
  env_write env = WriteOk ->
  (0 < sem_value w)%nat ->
  exists w',
    fetch_image env title (UrlStr u) score w
      = (w', Returns (Some (target_path title, score)))
    /\ files w' = <[target_path title := content]> (files w)
    /\ recorder_calls w' = recorder_calls w
    /\ failure_log w' = failure_log w.
Proof.
  intros Hurl Hget Hwrite Hfree. unfold target_path. unfold_fetch.
  rewrite Hurl, Hget, Hwrite.
  destruct w as [f lg [|free] script rq aq rc]; simpl in *; [lia|].
  eexists; repeat split.
Qed.

(** * Schedules *)

Section Schedule.

Context {A : Type}.

Lemma result_of_lookup (order : list nat) (rs : list A) (k i : nat) :
  NoDup order -> order !! k = Some i -> result_of i order rs = rs !! k.
Proof.
  revert rs k; induction order as [|j order IH]; intros rs k Hnd Hk.
  - discriminate Hk.
  - apply NoDup_cons in Hnd as [Hj Hnd].
    destruct rs as [|r rs]; [now destruct k|]. simpl.
    destruct k as [|k]; simpl in Hk.
    + inversion Hk; subst. now rewrite Nat.eqb_refl.
    + destruct (Nat.eqb_spec i j) as [->|_].
      * exfalso; apply Hj. apply list_elem_of_lookup; eauto.
      * exact (IH rs k Hnd Hk).
Qed.

Lemma result_of_Some (order : list nat) (rs : list A) (i : nat) (r : A) :
  result_of i order rs = Some r ->
  exists k, order !! k = Some i /\ rs !! k = Some r.
Proof.
  revert rs; induction order as [|j order IH]; intros [|x rs] H;
    try discriminate H.
  simpl in H. destruct (Nat.eqb_spec i j) as [->|_].
  - inversion H; subst. now exists 0%nat.
  - destruct (IH rs H) as (k & Hk & Hr). now exists (S k).
Qed.

Lemma schedule_NoDup (order : list nat) (n : nat) :
  Permutation order (seq 0 n) -> NoDup order.
Proof.
  intros Hp. rewrite Hp. apply NoDup_ListNoDup, List.seq_NoDup.
Qed.

Lemma schedule_position (order : list nat) (n i : nat) :
  Permutation order (seq 0 n) -> (i < n)%nat ->
  exists k, order !! k = Some i.
Proof.
  intros Hp Hi. apply list_elem_of_lookup. rewrite Hp.
  apply list_elem_of_In, in_seq. lia.
Qed.

Lemma schedule_in_range (order : list nat) (n k i : nat) :
  Permutation order (seq 0 n) -> order !! k = Some i -> (i < n)%nat.
Proof.
  intros Hp Hk.
  assert (Hin : i ∈ order) by (apply list_elem_of_lookup; eauto).
  rewrite Hp in Hin. apply list_elem_of_In, in_seq in Hin. lia.
Qed.

(** The result at index [i] is the one the task gave at its turn. *)
Lemma in_task_order_lookup (order : list nat) (rs ys : list A) (n k i : nat) :
  Permutation order (seq 0 n) ->
  in_task_order order rs n = Some ys ->
  order !! k = Some i ->
  ys !! i = rs !! k.
Proof.
  intros Hp Hys Hk.
  pose proof (schedule_in_range order n k i Hp Hk) as Hi.
  apply mapM_Some_1 in Hys.
  assert (Hseq : seq 0 n !! i = Some i) by (now apply lookup_seq_lt).
  destruct (Forall2_lookup_l _ _ _ _ _ Hys Hseq) as (y & Hy & Hres).
  rewrite Hy, <- Hres. apply result_of_lookup; [|exact Hk].
  now apply (schedule_NoDup order n).
Qed.

Lemma in_task_order_length (order : list nat) (rs ys : list A) (n : nat) :
  in_task_order order rs n = Some ys -> length ys = n.
Proof.
  intros Hys. apply mapM_Some_1, Forall2_length in Hys.
  now rewrite length_seq in Hys.
Qed.

(** When every task has run, every task has a result. *)
Lemma in_task_order_total (order : list nat) (rs : list A) (n : nat) :
  Permutation order (seq 0 n) -> length rs = n ->
  exists ys, in_task_order order rs n = Some ys.
Proof.
  intros Hp Hlen.
  assert (Hsome : is_Some (in_task_order order rs n)); [|destruct Hsome; eauto].
  apply mapM_is_Some_2, Forall_forall. intros i Hi.
  apply list_elem_of_In, in_seq in Hi.
  destruct (schedule_position order n i Hp) as (k & Hk); [lia|].
  simpl. rewrite (result_of_lookup order rs k i); [|now apply (schedule_NoDup order n)|exact Hk].
  assert (Hlo : length order = n) by (rewrite Hp; apply length_seq).
  apply lookup_lt_is_Some. rewrite Hlen, <- Hlo.
  apply lookup_lt_is_Some; eauto.
Qed.

(** The results by task are the results by turn, in another order. *)
Lemma in_task_order_Permutation (order : list nat) (rs ys : list A) (n : nat) :
  Permutation order (seq 0 n) -> length rs = n ->
  in_task_order order rs n = Some ys ->
  Permutation rs ys.
Proof.
  intros Hp Hlen Hys.
  pose proof (in_task_order_length order rs ys n Hys) as Hlen'.
  assert (Hlo : length order = n) by (rewrite Hp; apply length_seq).
  apply Permutation_inj. split; [congruence|].
  exists (fun k => default k (order !! k)). split.
  - intros k1 k2 Heq.
    destruct (order !! k1) as [i1|] eqn:H1, (order !! k2) as [i2|] eqn:H2;
      simpl in Heq.
    + rewrite Heq in H1.
      eapply NoDup_lookup; [now apply (schedule_NoDup order n)| |]; eassumption.
    + pose proof (schedule_in_range order n k1 i1 Hp H1).
      apply lookup_ge_None in H2. lia.
    + pose proof (schedule_in_range order n k2 i2 Hp H2).
      apply lookup_ge_None in H1. lia.
    + exact Heq.
  - intros k. destruct (order !! k) as [i|] eqn:Hk; simpl.
    + symmetry. now apply (in_task_order_lookup order rs ys n k i).
    + apply lookup_ge_None in Hk.
      rewrite (lookup_ge_None_2 rs k), (lookup_ge_None_2 ys k) by lia.
      reflexivity.
Qed.

(** In the schedule that follows the tasks, the results by task are the
    results by turn. *)
Lemma in_task_order_seq (rs : list A) :
  in_task_order (seq 0 (length rs)) rs (length rs) = Some rs.
Proof.
  destruct (in_task_order_total (seq 0 (length rs)) rs (length rs)
              (Permutation_refl _) eq_refl) as (ys & Hys).
  rewrite Hys. f_equal. apply list_eq. intros i.
  destruct (decide (i < length rs)%nat) as [Hi|Hi].
  - apply (in_task_order_lookup _ rs ys (length rs) i i
             (Permutation_refl _) Hys).
    now apply lookup_seq_lt.
  - pose proof (in_task_order_length _ _ _ _ Hys).
    rewrite !lookup_ge_None_2 by lia. reflexivity.
Qed.



Lemma rows_in_seq (pre l : list A) :
  rows_in (seq (length pre) (length l)) (pre ++ l)%list = l.
Proof.
  unfold rows_in.
  revert pre; induction l as [|x l IH]; intros pre; [reflexivity|].
  cbn [length seq]. simpl omap. rewrite list_lookup_middle by reflexivity. simpl.
  f_equal.
  specialize (IH (pre ++ [x])%list).
  rewrite <- app_assoc, length_app in IH. simpl in IH.
  now rewrite Nat.add_1_r in IH.
Qed.

(** A schedule runs the rows of the table, each once. *)
Lemma rows_in_Permutation (order : list nat) (l : list A) :
  Permutation order (seq 0 (length l)) -> Permutation (rows_in order l) l.
Proof.
  intros Hp. unfold rows_in. rewrite Hp.
  exact (eq_ind _ (fun x => Permutation x l) (Permutation_refl l) _
           (eq_sym (rows_in_seq [] l))).
Qed.

Lemma rows_in_In (order : list nat) (l : list A) (x : A) :
  In x (rows_in order l) -> In x l.
Proof.
  unfold rows_in. intros Hin. apply list_elem_of_In in Hin.
  apply list_elem_of_omap in Hin as (i & _ & Hi).
  apply list_elem_of_In, list_elem_of_lookup; eauto.
Qed.

Lemma rows_in_length (order : list nat) (l : list A) :
  Permutation order (seq 0 (length l)) -> length (rows_in order l) = length l.
Proof. intros Hp. now rewrite (rows_in_Permutation order l Hp). Qed.

End Schedule.

Section ScheduleTransfer.

Context {A B : Type}.

Lemma rows_in_map (f : A -> B) (order : list nat) (l : list A) :
  omap (fun i => map f l !! i) order = map f (rows_in order l).
Proof.
  unfold rows_in. induction order as [|i order IH]; [reflexivity|].
  simpl. change (map f l) with (f <$> l) at 1. rewrite list_lookup_fmap.
  destruct (l !! i); simpl; [f_equal|]; exact IH.
Qed.


End ScheduleTransfer.


(** * Tasks awaited one after the other *)

Lemma await_each_cons {A} (task : M A) (rest : list (M A)) (w w' : World)
    (rs : list A) :
  await_each (task :: rest) w = (w', Returns rs) ->
  exists w1 r rs',
    task w = (w1, Returns r) /\ await_each rest w1 = (w', Returns rs')
    /\ rs = r :: rs'.
Proof.
  simpl; unfold bind, ret.
  destruct (task w) as [w1 [r|e|]]; try discriminate.
  destruct (await_each rest w1) as [w2 [rs'|e|]] eqn:Hrest; try discriminate.
  intros H; inversion H; subst.
  exists w1, r, rs'; repeat split; assumption.
Qed.

Lemma await_each_length {A} (tasks : list (M A)) (w w' : World)
    (rs : list A) :
  await_each tasks w = (w', Returns rs) -> length rs = length tasks.
Proof.
  revert w rs; induction tasks as [|task tasks IH]; intros w rs H.
  - inversion H; reflexivity.
  - apply await_each_cons in H as (w1 & r & rs' & _ & Hrest & ->).
    simpl. f_equal. eapply IH; eassumption.
Qed.

Lemma await_each_sem {Score} (df : list (Row Score)) (w : World) :
  sem_value (fst (await_each (map fetch_row df) w)) = sem_value w.
Proof.
  revert w; induction df as [|row df IH]; intros w; [reflexivity|].
  simpl; unfold bind, ret.
  pose proof (fetch_image_sem (answers row) (Title row) (Poster row)
                (IMDB_Score row) w) as Hrow.
  unfold fetch_row at 1.
  destruct (fetch_image _ _ _ _ w) as [w1 [o|e|]]; simpl in *; try assumption.
  specialize (IH w1).
  destruct (await_each _ w1) as [w2 [rs|e|]]; simpl in *; congruence.
Qed.

Lemma join_app (a b : list string) : join (a ++ b)%list = join a ++ join b.
Proof.
  induction a as [|c a IH]; simpl; [reflexivity|].
  now rewrite IH, append_assoc.
Qed.




(** An exception that ends a wait was raised by an append to the log. *)
Lemma await_each_raises {Score} (df : list (Row Score)) (w : World)
    (e : exn) :
  snd (await_each (map fetch_row df) w) = Raises e ->
  exists a, In a (log_script w) /\ raised_of a = Some e.
Proof.
  revert w; induction df as [|row df IH]; intros w; [discriminate|].
  cbn [map await_each]; unfold bind, ret.
  pose proof (fetch_image_raises (answers row) (Title row) (Poster row)
                (IMDB_Score row) w) as Hraise.
  destruct (fetch_image_script (answers row) (Title row) (Poster row)
              (IMDB_Score row) w) as (used & _ & Hscript).
  unfold fetch_row at 1.
  destruct (fetch_image _ _ _ _ w) as [w1 [o|e1|]]; simpl in *.
  - specialize (IH w1).
    destruct (await_each (map fetch_row df) w1) as [w2 [rs|e2|]];
      simpl in *; try discriminate.
    intros H. destruct (IH H) as (a & Hin & Ha).
    exists a; split; [|exact Ha].
    rewrite Hscript in Hin.
    apply list_elem_of_In. apply list_elem_of_In in Hin.
    apply (proj1 (list_elem_of_lookup _ _)) in Hin as (i & Hi).
    rewrite lookup_drop in Hi. apply list_elem_of_lookup; eauto.
  - intros H. inversion H; subst e1.
    destruct (Hraise e eq_refl) as (a & Hin & Ha).
    exists a; split; [|exact Ha].
    apply list_elem_of_In. apply list_elem_of_In in Hin.
    apply (proj1 (list_elem_of_lookup _ _)) in Hin as (i & Hi).
    apply list_elem_of_lookup. exists i.
    destruct (decide (i < 2)%nat) as [Hlt|Hge].
    + now rewrite lookup_take_lt in Hi.
    + rewrite lookup_take_ge in Hi by lia. discriminate.
  - discriminate.
Qed.

(** * Runs *)

(** A run that completes is a wait that returns, for the rows in the
    order of the schedule, with the results put back in the order of the
    rows. *)
Lemma scrape_all_returns {Score} (order : list nat) (df : list (Row Score))
    (w w' : World) (results : list (string * Score)) :
  scrape_all order df w = (w', Returns results) ->
  exists rs results0,
    await_each (map fetch_row (rows_in order df)) (set_sem CONCURRENCY w)
      = (w', Returns rs)
    /\ in_task_order order rs (length df) = Some results0
    /\ results = not_none results0.
Proof.
  unfold scrape_all, gather, bind, ret.
  rewrite rows_in_map, length_map.
  destruct (await_each _ _) as [w1 [rs|e|]]; try discriminate.
  destruct (in_task_order order rs (length df)) as [results0|] eqn:Hres;
    try discriminate.
  intros H; inversion H; subst. eauto.
Qed.

Lemma scrape_all_fst {Score} (order : list nat) (df : list (Row Score))
    (w : World) :
  fst (scrape_all order df w)
  = fst (await_each (map fetch_row (rows_in order df)) (set_sem CONCURRENCY w)).
Proof.
  unfold scrape_all, gather, bind, ret.
  rewrite rows_in_map, length_map.
  destruct (await_each _ _) as [w1 [rs|e|]]; try reflexivity.
  now destruct (in_task_order order rs (length df)).
Qed.

Lemma scrape_all_raises {Score} (order : list nat) (df : list (Row Score))
    (w : World) (e : exn) :
  snd (scrape_all order df w) = Raises e <->
  snd (await_each (map fetch_row (rows_in order df)) (set_sem CONCURRENCY w))
  = Raises e.
Proof.
  unfold scrape_all, gather, bind, ret.
  rewrite rows_in_map, length_map.
  destruct (await_each _ _) as [w1 [rs|e1|]]; simpl.
  - destruct (in_task_order order rs (length df)); simpl; split; discriminate.
  - split; intros H; inversion H; reflexivity.
  - split; discriminate.
Qed.

(** The run in which the fetches run in the order of the rows is one of
    the schedules. *)
Lemma scrape_all_in_row_order {Score} (df : list (Row Score)) (w : World) :
  schedule_of df (seq 0 (length df))
  /\ scrape_all (seq 0 (length df)) df w
     = bind (await_each (map fetch_row df)) (fun rs => ret (not_none rs))
            (set_sem CONCURRENCY w).
Proof.
  split; [apply Permutation_refl|].
  unfold scrape_all, gather, bind, ret.
  rewrite rows_in_map, length_map.
  change (rows_in (seq 0 (length df)) df)
    with (rows_in (seq (length (@nil (Row Score))) (length df)) ([] ++ df)%list).
  rewrite (rows_in_seq [] df).
  destruct (await_each _ _) as [w1 [rs|e|]] eqn:Hg; try reflexivity.
  apply await_each_length in Hg. rewrite length_map in Hg.
  now rewrite <- Hg, in_task_order_seq.
Qed.












(** * The lines of the log *)

Lemma parse_chars_escape_char (c : ascii) (rest : string) :
  parse_chars (escape_char c ++ rest) = push (nat_of_ascii c) (parse_chars rest).
Proof.
  destruct c as [[] [] [] [] [] [] [] []]; reflexivity.
Qed.

Lemma parse_chars_escaped (s rest : string) :
  parse_chars (escape_chars s ++ String dquote rest)
  = Some (code_points s, rest).
Proof.
  induction s as [|c s IH]; [reflexivity|].
  simpl escape_chars. rewrite append_assoc, parse_chars_escape_char, IH.
  reflexivity.
Qed.

Lemma encode_str_append (s rest : string) :
  encode_str s ++ rest = String dquote (escape_chars s ++ String dquote rest).
Proof. unfold encode_str; simpl; now rewrite append_assoc. Qed.

Lemma skip_ws_value (v : py_value) (rest : string) :
  skip_ws (encode_value v ++ rest) = encode_value v ++ rest.
Proof. destruct v; reflexivity. Qed.

Lemma parse_scalar_value (v : py_value) (x : json_scalar) (rest : string) :
  read_back v = Some x ->
  parse_scalar (encode_value v ++ rest) = Some (x, rest).
Proof.
  destruct v as [| |s]; simpl read_back; intros H; inversion H; subst.
  - reflexivity.
  - simpl encode_value. rewrite encode_str_append.
    simpl. now rewrite parse_chars_escaped.
Qed.

Lemma parse_member_encoded (k : string) (v : py_value) (x : json_scalar)
    (rest : string) :
  read_back v = Some x ->
  parse_member (encode_str k ++ ": " ++ encode_value v ++ rest)
  = Some ((code_points k, x), skip_ws rest).
Proof.
  intros Hv. unfold parse_member. rewrite encode_str_append.
  simpl. rewrite parse_chars_escaped. simpl.
  rewrite skip_ws_value, (parse_scalar_value v x rest Hv). reflexivity.
Qed.

Lemma parse_member_space (s : string) :
  parse_member (String " " s) = parse_member s.
Proof. reflexivity. Qed.

Lemma parse_more_comma (fuel : nat) (rest : string) :
  parse_more (S fuel) (", " ++ rest) =
  match parse_member rest with
  | Some (m, r) =>
      match parse_more fuel r with
      | Some (ms, r') => Some (m :: ms, r')
      | None => None
      end
  | None => None
  end.
Proof. reflexivity. Qed.

Lemma parse_more_close (fuel : nat) (rest : string) :
  parse_more fuel ("}" ++ rest) = Some ([], rest).
Proof. destruct fuel; reflexivity. Qed.

Lemma skip_ws_comma (rest : string) : skip_ws (", " ++ rest) = ", " ++ rest.
Proof. reflexivity. Qed.

Lemma skip_ws_close (rest : string) : skip_ws ("}" ++ rest) = "}" ++ rest.
Proof. reflexivity. Qed.

Lemma encode_items_one (k : string) (v : py_value) :
  encode_items [(k, v)] = encode_str k ++ ": " ++ encode_value v.
Proof. reflexivity. Qed.

Lemma encode_items_more (k : string) (v : py_value) (kv : string * py_value)
    (items : list (string * py_value)) :
  encode_items ((k, v) :: kv :: items)
  = encode_str k ++ ": " ++ encode_value v ++ ", " ++ encode_items (kv :: items).
Proof. destruct kv; reflexivity. Qed.

Lemma parse_more_encoded (items : list (string * py_value)) :
  forall (k : string) (v : py_value) xs (rest : string) (fuel : nat),
    read_back_items ((k, v) :: items) = Some xs ->
    (length items < fuel)%nat ->
    parse_more fuel (", " ++ encode_items ((k, v) :: items) ++ "}" ++ rest)
    = Some (xs, rest).
Proof.
  induction items as [|[k' v'] items IH]; intros k v xs rest fuel Hxs Hfuel;
    (destruct fuel as [|fuel]; [simpl in Hfuel; lia|]);
    simpl in Hxs; destruct (read_back v) as [x|] eqn:Hv; try discriminate.
  - inversion Hxs; subst.
    rewrite parse_more_comma, encode_items_one, !append_assoc.
    rewrite (parse_member_encoded k v x _ Hv).
    now rewrite skip_ws_close, parse_more_close.
  - destruct (read_back v') as [x'|] eqn:Hv'; try discriminate.
    destruct (read_back_items items) as [xs'|] eqn:Hrest; try discriminate.
    inversion Hxs; subst.
    rewrite parse_more_comma, encode_items_more, !append_assoc.
    rewrite (parse_member_encoded k v x _ Hv), skip_ws_comma.
    rewrite (IH k' v' ((code_points k', x') :: xs') rest fuel).
    + reflexivity.
    + simpl. now rewrite Hv', Hrest.
    + simpl in Hfuel; lia.
Qed.

Lemma encode_items_length (items : list (string * py_value)) :
  forall kv, (length items < String.length (encode_items (kv :: items)))%nat.
Proof.
  induction items as [|kv' items IH]; intros [k v].
  - rewrite encode_items_one, encode_str_append. apply Nat.lt_0_succ.
  - rewrite encode_items_more, !length_append.
    specialize (IH kv').
    change (String.length ", ") with 2%nat.
    change (List.length (kv' :: items)) with (S (List.length items)).
    lia.
Qed.

(** An object that begins with a member. *)
Lemma parse_object_member (k : string) (rest : string) :
  parse_object ("{" ++ encode_str k ++ rest) =
  match parse_member (encode_str k ++ rest) with
  | Some (m, r1) =>
      match parse_more (String.length r1) r1 with
      | Some (ms, r2) => Some (m :: ms, r2)
      | None => None
      end
  | None => None
  end.
Proof. rewrite encode_str_append. reflexivity. Qed.

(** Every dict without a NaN is written as a JSON text that reads back
    as the same members. *)
Lemma json_dumps_reads_back (items : list (string * py_value)) xs :
  read_back_items items = Some xs ->
  parse_line (json_dumps items ++ String newline "") = Some xs.
Proof.
  destruct items as [|[k v] items]; intros Hxs.
  - inversion Hxs; reflexivity.
  - simpl in Hxs. destruct (read_back v) as [x|] eqn:Hv; try discriminate.
    destruct (read_back_items items) as [xs'|] eqn:Hrest; try discriminate.
    inversion Hxs; subst. unfold parse_line, json_dumps.
    destruct items as [|[k' v'] items].
    + inversion Hrest; subst.
      rewrite encode_items_one, !append_assoc, parse_object_member.
      rewrite (parse_member_encoded k v x _ Hv).
      now rewrite skip_ws_close, parse_more_close.
    + rewrite encode_items_more, !append_assoc, parse_object_member.
      rewrite (parse_member_encoded k v x _ Hv), skip_ws_comma.
      rewrite (parse_more_encoded items k' v' xs' (String newline "")).
      * reflexivity.
      * exact Hrest.
      * rewrite !length_append.
        pose proof (encode_items_length items (k', v')).
        change (String.length ", ") with 2%nat. lia.
Qed.

Lemma occurs_append (c : ascii) (a b : string) :
  occurs c (a ++ b) = occurs c a || occurs c b.
Proof.
  induction a as [|x a IH]; simpl; [reflexivity|].
  now rewrite IH, orb_assoc.
Qed.

Lemma no_newline_escape_char (c : ascii) :
  occurs newline (escape_char c) = false.
Proof. destruct c as [[] [] [] [] [] [] [] []]; reflexivity. Qed.

Lemma no_newline_encode_str (s : string) :
  occurs newline (encode_str s) = false.
Proof.
  unfold encode_str.
  change (String dquote (escape_chars s ++ String dquote ""))
    with (String dquote "" ++ escape_chars s ++ String dquote "").
  rewrite !occurs_append.
  replace (occurs newline (escape_chars s)) with false; [reflexivity|].
  induction s as [|c s IH]; [reflexivity|].
  simpl escape_chars. now rewrite occurs_append, no_newline_escape_char.
Qed.

Lemma no_newline_encode_value (v : py_value) :
  occurs newline (encode_value v) = false.
Proof. destruct v; try reflexivity. apply no_newline_encode_str. Qed.

Lemma no_newline_encode_items (items : list (string * py_value)) :
  occurs newline (encode_items items) = false.
Proof.
  induction items as [|[k v] items IH]; [reflexivity|].
  destruct items as [|kv items].
  - rewrite encode_items_one, !occurs_append.
    now rewrite no_newline_encode_str, no_newline_encode_value.
  - rewrite encode_items_more, !occurs_append.
    now rewrite no_newline_encode_str, no_newline_encode_value, IH.
Qed.

(** A record is one line: the only newline of what a call appends is the
    one that ends it, whatever the title, the url or the traceback
    hold. *)
Lemma record_line_is_one_line (r : failure_record) :
  occurs newline (json_dumps (record_items r)) = false
  /\ record_line r = json_dumps (record_items r) ++ String newline "".
Proof.
  split; [|reflexivity].
  unfold json_dumps. rewrite !occurs_append.
  now rewrite no_newline_encode_items.
Qed.

(** A record whose url is a string reads back, member for member, with
    the four keys of the dict. *)
Lemma str_url_line_reads_back (title u reason : string)
    (tb : option string) :
  parse_line (record_line (mk_record title (UrlStr u) reason tb))
  = Some [ (code_points "title", JString (code_points title));
           (code_points "url", JString (code_points u));
           (code_points "reason", JString (code_points reason));
           (code_points "traceback",
            match tb with
            | Some text => JString (code_points text)
            | None => JNull
            end) ].
Proof.
  unfold record_line. apply json_dumps_reads_back.
  destruct tb; reflexivity.
Qed.

Lemma parse_more_nan (fuel : nat) (k : string) (rest : string) :
  parse_more fuel (", " ++ encode_str k ++ ": " ++ encode_value PyNaN ++ rest)
  = None.
Proof.
  destruct fuel as [|fuel]; [reflexivity|].
  rewrite parse_more_comma.
  replace (parse_member (encode_str k ++ ": " ++ encode_value PyNaN ++ rest))
    with (@None ((list nat * json_scalar) * string)); [reflexivity|].
  unfold parse_member. rewrite encode_str_append.
  simpl. now rewrite parse_chars_escaped.
Qed.

(** C9 at the failing input: for a row without url the dict holds the
    float NaN, which is written as the bare word NaN; the line that
    reaches the log does not read back as JSON, whatever the title. *)
Theorem nan_url_line_is_not_json (title reason : string)
    (tb : option string) :
  parse_line (record_line (mk_record title UrlNaN reason tb)) = None
  /\ failure_log (fst (fetch_image ok_poster title UrlNaN 61 (empty_world 1)))
     = record_line (mk_record title UrlNaN "invalid_or_missing_url" None).
Proof.
  split; [|reflexivity].
  unfold record_line, record_items, json_dumps, parse_line.
  cbn [rec_title rec_url rec_reason rec_traceback py_of_url].
  rewrite encode_items_more, encode_items_more, !append_assoc.
  rewrite parse_object_member.
  rewrite (parse_member_encoded "title" (PyStr title) _ _ eq_refl).
  rewrite skip_ws_comma, parse_more_nan. reflexivity.
Qed.

(** * More on the filename sanitizer *)

Lemma sub_runs_safe (b : bool) (name : string) :
  all_safe name = true -> sub_runs b name = name.
Proof.
  revert b; induction name as [|c name IH]; intros b H; [reflexivity|].
  simpl in *. apply andb_true_iff in H as [Hc Hs].
  now rewrite Hc, IH.
Qed.

Lemma prefix_whole (k : nat) (s : string) :
  (String.length s <= k)%nat -> substring 0 k s = s.
Proof.
  revert s; induction k as [|k IH]; intros [|c s] H; simpl in *;
    try reflexivity; try lia.
  rewrite IH; [reflexivity | lia].
Qed.

Lemma length_prefix (k : nat) (s : string) :
  String.length (substring 0 k s) = Nat.min k (String.length s).
Proof.
  revert s; induction k as [|k IH]; intros [|c s]; simpl; try reflexivity.
  now rewrite IH.
Qed.

Lemma length_sub_runs (b : bool) (name : string) :
  (String.length (sub_runs b name) <= String.length name)%nat.
Proof.
  revert b; induction name as [|c name IH]; intros b; simpl; [lia|].
  destruct (is_safe c); [|destruct b]; simpl;
    match goal with |- context [sub_runs ?f name] => specialize (IH f) end;
    lia.
Qed.

Lemma sub_runs_swap (a b : string) (c1 c2 : ascii) (flag : bool) :
  is_safe c1 = false -> is_safe c2 = false ->
  sub_runs flag (a ++ String c1 b) = sub_runs flag (a ++ String c2 b).
Proof.
  intros H1 H2; revert flag; induction a as [|x a IH]; intros flag; simpl.
  - now rewrite H1, H2.
  - destruct (is_safe x); [|destruct flag]; now rewrite ?IH.
Qed.

Lemma all_safe_append (a b : string) :
  all_safe (a ++ b) = all_safe a && all_safe b.
Proof.
  induction a as [|x a IH]; simpl; [reflexivity|].
  now rewrite IH, andb_assoc.
Qed.

Lemma all_safe_no_slash (s : string) :
  all_safe s = true -> occurs "/" s = false.
Proof.
  induction s as [|c s IH]; [reflexivity|].
  intros H; simpl in H; apply andb_true_iff in H as [Hc Hs].
  change (occurs "/" (String c s)) with (Ascii.eqb "/" c || occurs "/" s).
  rewrite (IH Hs), orb_false_r.
  destruct (Ascii.eqb_spec "/" c) as [<-|]; [discriminate Hc | reflexivity].
Qed.

Lemma all_safe_slice (s : string) (n : Z) :
  all_safe s = true -> all_safe (slice_to s n) = true.
Proof. intros H; unfold slice_to; now apply all_safe_prefix. Qed.

(** X1: a title made of characters of the class and no longer than
    [max_len] is kept as it is: the filename is the title followed by
    ".jpg". *)
Theorem sanitize_filename_keeps_safe_title (name : string) (max_len : Z) :
  all_safe name = true ->
  Z.of_nat (String.length name) <= max_len ->
  sanitize_filename name max_len = name ++ ".jpg".
Proof.
  intros Hsafe Hlen. unfold sanitize_filename, SAFE_CHARS_sub.
  rewrite (sub_runs_safe false name Hsafe), slice_to_nonneg by lia.
  rewrite prefix_whole; [reflexivity | lia].
Qed.

Lemma sanitize_filename_keeps_safe_title_witness :
  sanitize_filename "Toy_Story-1995.v2" 100 = "Toy_Story-1995.v2" ++ ".jpg".
Proof.
  apply (sanitize_filename_keeps_safe_title "Toy_Story-1995.v2" 100);
    [reflexivity | vm_compute; discriminate].
Defined.

(** X2: the substitution is idempotent: what it returns has no character
    outside the class left, so a second pass changes nothing. *)
Theorem SAFE_CHARS_sub_idempotent (name : string) :
  SAFE_CHARS_sub (SAFE_CHARS_sub name) = SAFE_CHARS_sub name.
Proof.
  unfold SAFE_CHARS_sub. apply sub_runs_safe, all_safe_sub_runs.
Qed.

(** X3: the length of the filename, for every [max_len]: the extension
    plus the first [max_len] characters of the substituted title, or all
    but the last [-max_len] of them when [max_len] is negative; and the
    substituted title is never longer than the title. *)
Theorem sanitize_filename_length (name : string) (max_len : Z) :
  let substituted := Z.of_nat (String.length (SAFE_CHARS_sub name)) in
  Z.of_nat (String.length (sanitize_filename name max_len))
  = (if max_len <? 0 then Z.max 0 (substituted + max_len)
     else Z.min max_len substituted) + 4
  /\ substituted <= Z.of_nat (String.length name).
Proof.
  simpl; split.
  - unfold sanitize_filename, slice_to.
    rewrite length_append, length_prefix.
    change (String.length ".jpg") with 4%nat.
    destruct (Z.ltb_spec max_len 0); lia.
  - pose proof (length_sub_runs false name). unfold SAFE_CHARS_sub. lia.
Qed.

(** X4: two titles that differ in one character outside the class get
    the same filename, whatever [max_len] is: the sanitizer does not keep
    distinct titles apart. *)
Theorem sanitize_filename_collides (a b : string) (c1 c2 : ascii)
    (max_len : Z) :
  is_safe c1 = false -> is_safe c2 = false ->
  sanitize_filename (a ++ String c1 b) max_len
  = sanitize_filename (a ++ String c2 b) max_len.
Proof.
  intros H1 H2. unfold sanitize_filename, SAFE_CHARS_sub.
  now rewrite (sub_runs_swap a b c1 c2 false H1 H2).
Qed.

Lemma sanitize_filename_collides_witness :
  sanitize_filename ("Who" ++ String "?" " Me") 100
  = sanitize_filename ("Who" ++ String "!" " Me") 100.
Proof.
  apply (sanitize_filename_collides "Who" " Me" "?" "!" 100); reflexivity.
Defined.

(** X5: for every title and every [max_len], each character of the
    filename, extension included, is in the class; so the filename holds
    no slash and the target path has the image directory as its only
    directory part. *)
Theorem sanitize_filename_is_plain_name (title : string) (max_len : Z) :
  all_safe (sanitize_filename title max_len) = true
  /\ occurs "/" (sanitize_filename title max_len) = false
  /\ target_path title
     = "poster_images/" ++ sanitize_filename title DEFAULT_MAX_LEN
  /\ occurs "/" (sanitize_filename title DEFAULT_MAX_LEN) = false.
Proof.
  assert (H : forall n, all_safe (sanitize_filename title n) = true).
  { intros n. unfold sanitize_filename. rewrite all_safe_append.
    rewrite all_safe_slice; [reflexivity|].
    apply all_safe_sub_runs. }
  repeat split; auto using all_safe_no_slash.
Qed.

(** * More on the lines of the log *)

Lemma code_points_inj (a b : string) : code_points a = code_points b -> a = b.
Proof.
  unfold code_points.
  revert b; induction a as [|x a IH]; intros [|y b] H; simpl in H;
    try discriminate; [reflexivity|].
  inversion H as [[Hx Hrest]].
  rewrite (IH b Hrest). f_equal.
  rewrite <- (ascii_nat_embedding x), <- (ascii_nat_embedding y).
  now rewrite Hx.
Qed.

(** X8: the line keeps the whole record: two records with string urls
    that are written as the same line are the same record, so titles,
    urls, reasons and tracebacks with quotes, backslashes or control
    characters in them are told apart by their lines. *)
Theorem record_line_injective (r1 r2 : failure_record) (u1 u2 : string) :
  rec_url r1 = UrlStr u1 -> rec_url r2 = UrlStr u2 ->
  record_line r1 = record_line r2 -> r1 = r2.
Proof.
  destruct r1 as [t1 url1 reason1 tb1], r2 as [t2 url2 reason2 tb2]; simpl.
  intros -> -> H.
  apply (f_equal parse_line) in H. unfold record_line, record_items in H.
  cbn [rec_title rec_url rec_reason rec_traceback py_of_url] in H.
  destruct tb1 as [x1|], tb2 as [x2|];
    erewrite !json_dumps_reads_back in H by reflexivity;
    inversion H;
    repeat match goal with
      | Hc : code_points _ = code_points _ |- _ =>
          apply code_points_inj in Hc; subst
      end;
    reflexivity.
Qed.

Lemma record_line_injective_witness :
  mk_record "t" (UrlStr "http://x") "ClientError" None
  = mk_record "t" (UrlStr "http://x") "ClientError" None.
Proof.
  apply (record_line_injective
           (mk_record "t" (UrlStr "http://x") "ClientError" None)
           (mk_record "t" (UrlStr "http://x") "ClientError" None)
           "http://x" "http://x"); reflexivity.
Defined.

(** * More on the fetch worker *)

Lemma fetch_image_log_grows {Score} (env : Env) (title : string)
    (url : url_value) (score : Score) (w : World) :
  exists suffix,
    failure_log (fst (fetch_image env title url score w))
    = failure_log w ++ suffix.
Proof.
  unfold_fetch. destruct w as [f lg sv script rq aq rc]; simpl.
  destruct url as [|u]; simpl; split_cases;
    first [ exists ""; simpl; now rewrite append_nil_r
          | eexists; reflexivity
          | eexists; rewrite append_assoc; reflexivity ].
Qed.

Lemma list_snoc_neq {A} (l t : list A) (x : A) : (l ++ x :: t)%list <> l.
Proof.
  intros H. apply (f_equal (@length A)) in H.
  rewrite length_app in H. simpl in H. lia.
Qed.

(** The log changes through the recorder only. *)
Lemma fetch_image_log_same {Score} (env : Env) (title : string)
    (url : url_value) (score : Score) (w : World) :
  recorder_calls (fst (fetch_image env title url score w)) = recorder_calls w ->
  failure_log (fst (fetch_image env title url score w)) = failure_log w.
Proof.
  unfold_fetch. destruct w as [f lg sv script rq aq rc]; simpl.
  destruct url as [|u]; simpl; split_cases; intros H;
    first [ reflexivity
          | exfalso; exact (list_snoc_neq _ _ _ H)
          | exfalso; rewrite <- app_assoc in H; exact (list_snoc_neq _ _ _ H) ].
Qed.

Lemma await_each_log_grows {Score} (df : list (Row Score)) (w : World) :
  exists suffix,
    failure_log (fst (await_each (map fetch_row df) w)) = failure_log w ++ suffix.
Proof.
  revert w; induction df as [|row df IH]; intros w.
  - exists ""; simpl; now rewrite append_nil_r.
  - destruct (fetch_image_log_grows (answers row) (Title row) (Poster row)
                (IMDB_Score row) w) as (s1 & H1).
    cbn [map await_each]; unfold bind, ret. unfold fetch_row at 1.
    destruct (fetch_image _ _ _ _ w) as [w1 [o|e|]]; simpl in H1; simpl; eauto.
    destruct (IH w1) as (s2 & H2).
    destruct (await_each (map fetch_row df) w1) as [w2 [rs|e|]]; simpl in *;
      exists (s1 ++ s2); now rewrite H2, H1, append_assoc.
Qed.

(** X9: the failure log is append-only.  After a fetch, however it ends,
    the old log is a prefix of the new one, and a fetch that has not
    called the recorder has left the log as it was; after a run, under
    every schedule, whether it completes or ends with an exception, the
    old log is a prefix of the new one. *)
Theorem failure_log_only_grows {Score} :
  (forall (env : Env) (title : string) (url : url_value) (score : Score)
          (w : World),
      exists suffix,
        failure_log (fst (fetch_image env title url score w))
        = failure_log w ++ suffix)
  /\ (forall (env : Env) (title : string) (url : url_value) (score : Score)
             (w : World),
        recorder_calls (fst (fetch_image env title url score w))
          = recorder_calls w ->
        failure_log (fst (fetch_image env title url score w)) = failure_log w)
  /\ (forall (order : list nat) (df : list (Row Score)) (w : World),
        schedule_of df order ->
        exists suffix,
          failure_log (fst (scrape_all order df w)) = failure_log w ++ suffix).
Proof.
  split; [apply @fetch_image_log_grows|].
  split; [apply @fetch_image_log_same|].
  intros order df w _. rewrite scrape_all_fst.
  exact (await_each_log_grows (rows_in order df) (set_sem CONCURRENCY w)).
Qed.

Lemma failure_log_only_grows_witness :
  exists suffix,
    failure_log (fst (scrape_all [1; 2; 0]%nat sample_rows (log_fails 1 0)))
    = failure_log (log_fails 1 0) ++ suffix.
Proof.
  apply (proj2 (proj2 (@failure_log_only_grows Z)) [1; 2; 0]%nat sample_rows
           (log_fails 1 0)).
  exact (Permutation_cons_app [0]%nat [2]%nat 1%nat (perm_swap 0%nat 2%nat [])).
Defined.

Lemma fetch_image_other_files {Score} (env : Env) (title : string)
    (url : url_value) (score : Score) (w : World) (p : string) :
  p <> target_path title ->
  files (fst (fetch_image env title url score w)) !! p = files w !! p.
Proof.
  intros Hp. unfold target_path in Hp. unfold_fetch.
  destruct w as [f lg sv script rq aq rc]; simpl.
  destruct url as [|u]; simpl; split_cases;
    first [ reflexivity | apply lookup_insert_ne; congruence ].
Qed.

Lemma fetch_image_keeps_files {Score} (env : Env) (title : string)
    (url : url_value) (score : Score) (w : World) (p : string) :
  is_Some (files w !! p) ->
  is_Some (files (fst (fetch_image env title url score w)) !! p).
Proof.
  intros Hp.
  destruct (decide (p = target_path title)) as [->|Hne];
    [|now rewrite fetch_image_other_files].
  revert Hp. unfold target_path. unfold_fetch.
  destruct w as [f lg sv script rq aq rc]; simpl.
  destruct url as [|u]; simpl; split_cases; intros Hp;
    first [ exact Hp | rewrite lookup_insert_eq; eauto ].
Qed.

Lemma await_each_other_files {Score} (df : list (Row Score)) (w : World)
    (p : string) :
  (forall row, In row df -> p <> target_path (Title row)) ->
  files (fst (await_each (map fetch_row df) w)) !! p = files w !! p.
Proof.
  revert w; induction df as [|row df IH]; intros w Hp; [reflexivity|].
  pose proof (fetch_image_other_files (answers row) (Title row) (Poster row)
                (IMDB_Score row) w p (Hp row (or_introl eq_refl))) as Hrow.
  cbn [map await_each]; unfold bind, ret. unfold fetch_row at 1.
  destruct (fetch_image _ _ _ _ w) as [w1 [o|e|]]; simpl in *;
    try exact Hrow.
  rewrite <- Hrow, <- (IH w1) by (intros r Hr; apply Hp; now right).
  now destruct (await_each (map fetch_row df) w1) as [w2 [rs|e|]].
Qed.

Lemma await_each_keeps_files {Score} (df : list (Row Score)) (w : World)
    (p : string) :
  is_Some (files w !! p) ->
  is_Some (files (fst (await_each (map fetch_row df) w)) !! p).
Proof.
  revert w; induction df as [|row df IH]; intros w Hp; [exact Hp|].
  pose proof (fetch_image_keeps_files (answers row) (Title row) (Poster row)
                (IMDB_Score row) w p Hp) as Hrow.
  cbn [map await_each]; unfold bind, ret. unfold fetch_row at 1.
  destruct (fetch_image _ _ _ _ w) as [w1 [o|e|]]; simpl in *;
    try exact Hrow.
  specialize (IH w1 Hrow).
  now destruct (await_each (map fetch_row df) w1) as [w2 [rs|e|]].
Qed.

Lemma file_at_other (w : World) (p : string) :
  p <> FAILED_JSONL -> file_at w p = option_map Binary (files w !! p).
Proof.
  intros Hp. unfold file_at.
  now destruct (String.eqb_spec p FAILED_JSONL).
Qed.

(** X10: a fetch writes nowhere but at the target path of its title and
    at the path of the failure log, which are never the same path; and a
    run, under every schedule, writes nowhere but at the target paths of
    its rows and at the path of the log: every other path holds after it
    what it held before, however the fetch or the run ends. *)
Theorem other_paths_are_untouched {Score} :
  (forall title : string, target_path title <> FAILED_JSONL)
  /\ (forall (env : Env) (title : string) (url : url_value) (score : Score)
             (w : World) (p : string),
        p <> target_path title ->
        p <> FAILED_JSONL ->
        file_at (fst (fetch_image env title url score w)) p = file_at w p)
  /\ (forall (order : list nat) (df : list (Row Score)) (w : World)
             (p : string),
        schedule_of df order ->
        (forall row, In row df -> p <> target_path (Title row)) ->
        p <> FAILED_JSONL ->
        file_at (fst (scrape_all order df w)) p = file_at w p).
Proof.
  split; [exact target_path_is_not_the_log|]. split.
  - intros env title url score w p Hp Hlog.
    rewrite !file_at_other by exact Hlog.
    now rewrite fetch_image_other_files.
  - intros order df w p _ Hp Hlog.
    rewrite !file_at_other by exact Hlog.
    rewrite scrape_all_fst.
    rewrite await_each_other_files; [reflexivity|].
    intros row Hrow. apply Hp. now apply (rows_in_In order).
Qed.

Lemma other_paths_are_untouched_witness :
  file_at (fst (scrape_all [2; 0; 1]%nat sample_rows (empty_world 0)))
          "poster_images/Up.jpg"
  = file_at (empty_world 0) "poster_images/Up.jpg".
Proof.
  apply (proj2 (proj2 (@other_paths_are_untouched Z)) [2; 0; 1]%nat
           sample_rows (empty_world 0) "poster_images/Up.jpg").
  - exact (Permutation_cons_app [0; 1]%nat [] 2%nat (Permutation_refl _)).
  - intros row [<-|[<-|[<-|[]]]]; vm_compute; discriminate.
  - vm_compute; discriminate.
Defined.

Lemma fetch_image_some {Score} (env : Env) (title : string)
    (url : url_value) (score : Score) (w w' : World)
    (entry : string * Score) :
  fetch_image env title url score w = (w', Returns (Some entry)) ->
  exists u content,
    url = UrlStr u /\ startswith u "http" = true
    /\ env_get env = GetResponse 200 (ReadOk content)
    /\ env_write env = WriteOk
    /\ entry = (target_path title, score)
    /\ files w' !! target_path title = Some content
    /\ requests w' = (requests w ++ [u])%list.
Proof.
  unfold target_path. unfold_fetch.
  destruct w as [f lg sv script rq aq rc]; simpl.
  destruct url as [|u]; simpl; split_cases;
    intros Hrun; inversion Hrun; subst; simpl.
  match goal with
  | H : negb (?s =? 200) = false |- _ =>
      apply negb_false_iff, Z.eqb_eq in H; subst s
  end.
  match goal with
  | H : negb (startswith u "http") = false |- _ =>
      apply negb_false_iff in H
  end.
  eexists; eexists; repeat split; try eassumption.
  apply lookup_insert_eq.
Qed.

Lemma await_each_entries_have_files {Score} (df : list (Row Score))
    (w w' : World) (rs : list (option (string * Score))) :
  await_each (map fetch_row df) w = (w', Returns rs) ->
  forall entry, In (Some entry) rs -> is_Some (files w' !! fst entry).
Proof.
  revert w rs; induction df as [|row df IH]; intros w rs H entry Hin.
  - inversion H; subst; destruct Hin.
  - change (map fetch_row (row :: df))
      with (fetch_row row :: map fetch_row df) in H.
    apply await_each_cons in H as (w1 & o & rs' & Hrow & Hrest & ->).
    destruct Hin as [->|Hin]; [|eapply IH; eassumption].
    apply fetch_image_some in Hrow
      as (u & content & _ & _ & _ & _ & -> & Hfile & _).
    pose proof (await_each_keeps_files df w1 (target_path (Title row))) as Hkeep.
    rewrite Hrest in Hkeep. apply Hkeep. rewrite Hfile; eauto.
Qed.

(** X11: an entry never comes without its file.  A fetch returns a pair
    only after a response with status 200 whose whole body it has
    written, and the file at the path of the pair then holds exactly
    that body; after a run that completes, under every schedule, every
    path in the mapping names a file that exists. *)
Theorem entries_point_at_files {Score} :
  (forall (env : Env) (title : string) (url : url_value) (score : Score)
          (w w' : World) (entry : string * Score),
      fetch_image env title url score w = (w', Returns (Some entry)) ->
      exists u content,
        url = UrlStr u /\ startswith u "http" = true
        /\ env_get env = GetResponse 200 (ReadOk content)
        /\ env_write env = WriteOk
        /\ entry = (target_path title, score)
        /\ files w' !! target_path title = Some content
        /\ requests w' = (requests w ++ [u])%list)
  /\ (forall (order : list nat) (df : list (Row Score)) (w w' : World)
             (results : list (string * Score)),
        schedule_of df order ->
        scrape_all order df w = (w', Returns results) ->
        forall entry, In entry results -> is_Some (files w' !! fst entry)).
Proof.
  split; [apply @fetch_image_some|].
  intros order df w w' results Hp H entry Hin.
  apply scrape_all_returns in H as (rs & results0 & Hg & Hres & ->).
  eapply await_each_entries_have_files; [exact Hg|].
  pose proof (await_each_length _ _ _ _ Hg) as Hlen.
  rewrite length_map, (rows_in_length order df Hp) in Hlen.
  unfold not_none in Hin. apply list_elem_of_In in Hin.
  apply list_elem_of_omap in Hin as (o & Ho & Hid).
  simpl in Hid; subst o. apply list_elem_of_In.
  now rewrite (in_task_order_Permutation order rs results0 _ Hp Hlen Hres).
Qed.

Lemma entries_point_at_files_witness :
  is_Some (files (fst (scrape_all [2; 0; 1]%nat sample_rows (empty_world 0)))
           !! "poster_images/Toy_Story.jpg").
Proof.
  apply (proj2 (@entries_point_at_files Z) [2; 0; 1]%nat sample_rows
           (empty_world 0)
           (fst (scrape_all [2; 0; 1]%nat sample_rows (empty_world 0)))
           [("poster_images/Toy_Story.jpg", 83)]
           (Permutation_cons_app [0; 1]%nat [] 2%nat (Permutation_refl _))
           ltac:(vm_compute; reflexivity)
           ("poster_images/Toy_Story.jpg", 83) (or_introl eq_refl)).
Defined.

(** X12: how a failure inside the [try] is classified.  Whatever raises,
    the request, the read of the body or the write of the file, the
    fetch returns no pair after one request and one call of the
    recorder, and the record depends on the class of the exception
    only: its type name alone for a client error or a timeout,
    "unexpected_" before the type name and the traceback for anything
    else. *)
Theorem stage_error_is_classified {Score} (env : Env) (title u : string)
    (score : Score) (w : World) (e : exn) :
  startswith u "http" = true ->
  raised_by env = Some e ->
  (0 < sem_value w)%nat ->
  next_append_raises w = None ->
  let w' := fst (fetch_image env title (UrlStr u) score w) in
  snd (fetch_image env title (UrlStr u) score w) = Returns None
  /\ failure_log w' = failure_log w ++ record_line (error_record title u e)
  /\ recorder_calls w' = (recorder_calls w ++ [error_record title u e])%list
  /\ requests w' = (requests w ++ [u])%list.
Proof.
  intros Hurl Hraise Hfree Hlog; simpl.
  revert Hraise Hlog.
  unfold raised_by, next_append_raises, error_record. unfold_fetch.
  rewrite Hurl.
  destruct w as [f lg [|free] script rq aq rc]; simpl in *; [lia|].
  destruct env as [g wr]; simpl.
  destruct g as [e0|status [content|e0]]; simpl;
    try destruct (negb (status =? 200)); simpl;
    try destruct wr as [|e1|n e1]; simpl;
    intros Hraise Hlog; inversion Hraise; subst;
    destruct (exn_class_of e); simpl;
    destruct script as [|[|e2|n2 e2] rest]; simpl in *; try discriminate;
    repeat split; reflexivity.
Qed.

Lemma stage_error_is_classified_witness :
  let w := empty_world 1 in
  let w' := fst (fetch_image no_route "t" (UrlStr "http://x") 7 w) in
  snd (fetch_image no_route "t" (UrlStr "http://x") 7 w) = Returns None
  /\ failure_log w'
     = failure_log w ++ record_line (error_record "t" "http://x" connect_error)
  /\ recorder_calls w'
     = (recorder_calls w ++ [error_record "t" "http://x" connect_error])%list
  /\ requests w' = (requests w ++ ["http://x"])%list.
Proof.
  apply (stage_error_is_classified no_route "t" "http://x" 7 (empty_world 1)
           connect_error); [reflexivity | reflexivity | simpl; lia | reflexivity].
Defined.

(** X13: a write that fails part way leaves the cut file behind.  After
    a response with status 200 whose body was read, when the write
    raises after [written] bytes, the file at the target path holds the
    first [written] bytes of the body, replacing what was there, and the
    fetch returns no pair, whatever the log does. *)
Theorem failed_write_leaves_cut_file {Score} (env : Env) (title u : string)
    (score : Score) (w : World) (content : bytes) (written : nat) (e : exn) :
  startswith u "http" = true ->
  env_get env = GetResponse 200 (ReadOk content) ->
  env_write env = WriteRaises written e ->
  (0 < sem_value w)%nat ->
  files (fst (fetch_image env title (UrlStr u) score w))
  = <[target_path title := take written content]> (files w)
  /\ forall entry,
      snd (fetch_image env title (UrlStr u) score w) <> Returns (Some entry).
Proof.
  intros Hurl Hget Hwrite Hfree.
  unfold target_path. unfold_fetch. rewrite Hurl, Hget, Hwrite.
  destruct w as [f lg [|free] script rq aq rc]; simpl in *; [lia|].
  destruct (exn_class_of e); simpl;
    destruct script as [|[|e2|n2 e2] rest]; simpl;
    split; intros; first [reflexivity | discriminate].
Qed.

Lemma failed_write_leaves_cut_file_witness :
  files (fst (fetch_image (disk_full 2) "Up" (UrlStr "http://x/up.jpg") 82
                          (empty_world 1)))
  = <[target_path "Up" := take 2 [Byte.xff; Byte.xd8; Byte.xff]]>
      (files (empty_world 1))
  /\ forall entry,
      snd (fetch_image (disk_full 2) "Up" (UrlStr "http://x/up.jpg") 82
                       (empty_world 1))
      <> Returns (Some entry).
Proof.
  apply (failed_write_leaves_cut_file (disk_full 2) "Up" "http://x/up.jpg" 82
           (empty_world 1) [Byte.xff; Byte.xd8; Byte.xff] 2
           (mk_exn "OSError" OtherException "Traceback: No space left"));
    [reflexivity | reflexivity | reflexivity | simpl; lia].
Defined.

Lemma fetch_image_blocked {Score} (env : Env) (title : string)
    (url : url_value) (score : Score) (w : World) :
  snd (fetch_image env title url score w) = Blocked ->
  url_invalid url = false /\ sem_value w = 0%nat.
Proof.
  unfold_fetch. destruct w as [f lg sv script rq aq rc]; simpl.
  destruct url as [|u]; simpl; split_cases; intros H;
    first [discriminate H | split; reflexivity].
Qed.

(** X14: a fetch waits exactly when its url passes the validation and no
    slot is free, and a waiting fetch has done nothing yet: no request,
    no file, no record.  A row that fails the validation is never kept
    waiting. *)
Theorem fetch_image_waits_without_effect {Score} (env : Env)
    (title : string) (url : url_value) (score : Score) (w : World) :
  (url_invalid url = false -> sem_value w = 0%nat ->
   fetch_image env title url score w = (w, Blocked))
  /\ (snd (fetch_image env title url score w) = Blocked ->
      url_invalid url = false /\ sem_value w = 0%nat).
Proof.
  split; [|apply fetch_image_blocked].
  intros Hok Hsem. unfold fetch_image, async_with_sem.
  destruct url as [|u]; [discriminate Hok|].
  simpl in Hok. rewrite Hok, Hsem. reflexivity.
Qed.

Lemma fetch_image_waits_without_effect_witness :
  fetch_image ok_poster "Up" (UrlStr "http://x/up.jpg") 82 (empty_world 0)
  = (empty_world 0, Blocked).
Proof.
  apply (proj1 (fetch_image_waits_without_effect ok_poster "Up"
                  (UrlStr "http://x/up.jpg") 82 (empty_world 0)));
    reflexivity.
Defined.

Lemma fetch_image_requests {Score} (env : Env) (title : string)
    (url : url_value) (score : Score) (w : World) :
  requests (fst (fetch_image env title url score w))
  = match url with
    | UrlStr u =>
        if startswith u "http" && negb (sem_value w =? 0)%nat
        then (requests w ++ [u])%list
        else requests w
    | UrlNaN => requests w
    end.
Proof.
  destruct w as [f lg sv script rq aq rc].
  destruct url as [|u].
  - unfold_fetch; simpl; split_cases; reflexivity.
  - destruct (startswith u "http") eqn:Hu; destruct sv as [|free];
      unfold_fetch; rewrite Hu; simpl; split_cases; reflexivity.
Qed.

Lemma await_each_requests {Score} (df : list (Row Score)) (w : World) :
  (length (requests (fst (await_each (map fetch_row df) w)))
   <= length (requests w) + length df)%nat.
Proof.
  revert w; induction df as [|row df IH]; intros w; [simpl; lia|].
  assert (Hrow : (length (requests (fst (fetch_row row w)))
                  <= length (requests w) + 1)%nat).
  { unfold fetch_row. rewrite fetch_image_requests.
    destruct (Poster row) as [|u]; [lia|].
    destruct (_ && _); rewrite ?length_app; simpl; lia. }
  cbn [map await_each]; unfold bind, ret.
  destruct (fetch_row row w) as [w1 [o|e|]]; simpl in *; try lia.
  specialize (IH w1).
  destruct (await_each (map fetch_row df) w1) as [w2 [rs|e|]]; simpl in *; lia.
Qed.

(** X15: no retry.  A fetch makes one request, to the url of its row,
    when the url is a string that begins with "http" and a slot is free,
    and no request otherwise; "begins with http" is all the validation
    asks, so "httpx" passes and "HTTP://..." does not; and a run, under
    every schedule, makes at most one request per row. *)
Theorem one_request_per_row {Score} :
  (forall (env : Env) (title : string) (url : url_value) (score : Score)
          (w : World),
      requests (fst (fetch_image env title url score w))
      = match url with
        | UrlStr u =>
            if startswith u "http" && negb (sem_value w =? 0)%nat
            then (requests w ++ [u])%list
            else requests w
        | UrlNaN => requests w
        end)
  /\ (forall u, startswith u "http" = true <-> exists rest, u = "http" ++ rest)
  /\ (forall (order : list nat) (df : list (Row Score)) (w : World),
        schedule_of df order ->
        (length (requests (fst (scrape_all order df w)))
         <= length (requests w) + length df)%nat).
Proof.
  split; [apply @fetch_image_requests|]. split.
  - intros u. unfold startswith. rewrite prefix_correct.
    change (String.length "http") with 4%nat. split.
    + destruct u as [|a [|b [|c [|d rest]]]]; simpl; try discriminate.
      intros H. exists rest. inversion H as [[Ha Hb Hc Hd H0]].
      reflexivity.
    + intros [rest ->]. simpl. now destruct rest.
  - intros order df w Hp. rewrite scrape_all_fst.
    pose proof (await_each_requests (rows_in order df) (set_sem CONCURRENCY w))
      as H.
    change (requests (set_sem CONCURRENCY w)) with (requests w) in H.
    now rewrite (rows_in_length order df Hp) in H.
Qed.

Lemma one_request_per_row_witness :
  (length (requests (fst (scrape_all [2; 0; 1]%nat sample_rows (empty_world 0))))
   <= length (requests (empty_world 0)) + length sample_rows)%nat.
Proof.
  apply (proj2 (proj2 (@one_request_per_row Z)) [2; 0; 1]%nat sample_rows
           (empty_world 0)).
  exact (Permutation_cons_app [0; 1]%nat [] 2%nat (Permutation_refl _)).
Defined.

Lemma fetch_image_acquisitions {Score} (env : Env) (title : string)
    (url : url_value) (score : Score) (w : World) :
  (0 < sem_value w)%nat ->
  acquisitions (fst (fetch_image env title url score w))
  = (acquisitions w + usable_urls [url])%nat.
Proof.
  unfold_fetch. destruct w as [f lg [|free] script rq aq rc]; simpl; [lia|].
  intros _.
  destruct url as [|u]; simpl; split_cases; simpl; lia.
Qed.

Lemma usable_urls_Permutation (a b : list url_value) :
  Permutation a b -> usable_urls a = usable_urls b.
Proof.
  induction 1 as [|x a b _ IH|x y a|a b c _ IH1 _ IH2]; simpl;
    [reflexivity | now rewrite IH | lia | congruence].
Qed.

Lemma await_each_acquisitions {Score} (df : list (Row Score)) (w w' : World)
    (rs : list (option (string * Score))) :
  (0 < sem_value w)%nat ->
  await_each (map fetch_row df) w = (w', Returns rs) ->
  acquisitions w' = (acquisitions w + usable_urls (map Poster df))%nat.
Proof.
  revert w rs; induction df as [|row df IH]; intros w rs Hfree H.
  - inversion H; subst. simpl. lia.
  - change (map fetch_row (row :: df))
      with (fetch_row row :: map fetch_row df) in H.
    apply await_each_cons in H as (w1 & o & rs' & Hrow & Hrest & ->).
    pose proof (fetch_image_acquisitions (answers row) (Title row)
                  (Poster row) (IMDB_Score row) w Hfree) as Hacq.
    pose proof (fetch_image_sem (answers row) (Title row) (Poster row)
                  (IMDB_Score row) w) as Hsem.
    unfold fetch_row in Hrow. rewrite Hrow in Hacq, Hsem. simpl in Hacq, Hsem.
    rewrite (IH w1 rs') by (assumption || lia).
    rewrite Hacq. simpl. lia.
Qed.

(** X16: no slot is lost over a run.  After a run that completes, under
    every schedule, all the slots of its semaphore are free, and a slot
    was taken exactly once for every row whose url passes the
    validation, and never for another row. *)
Theorem scrape_all_frees_all_slots {Score} (order : list nat)
    (df : list (Row Score)) (w w' : World)
    (results : list (string * Score)) :
  schedule_of df order ->
  scrape_all order df w = (w', Returns results) ->
  sem_value w' = CONCURRENCY
  /\ acquisitions w' = (acquisitions w + usable_urls (map Poster df))%nat.
Proof.
  intros Hp H.
  apply scrape_all_returns in H as (rs & results0 & Hg & _ & _).
  split.
  - pose proof (await_each_sem (rows_in order df) (set_sem CONCURRENCY w))
      as Hsem.
    now rewrite Hg in Hsem.
  - assert (Hfree : (0 < sem_value (set_sem CONCURRENCY w))%nat)
      by (unfold CONCURRENCY; simpl; lia).
    rewrite (await_each_acquisitions _ _ _ _ Hfree Hg).
    change (acquisitions (set_sem CONCURRENCY w)) with (acquisitions w).
    f_equal. apply usable_urls_Permutation.
    apply Permutation_map. now apply rows_in_Permutation.
Qed.

Lemma scrape_all_frees_all_slots_witness :
  sem_value (fst (scrape_all [2; 0; 1]%nat sample_rows (empty_world 0)))
  = CONCURRENCY
  /\ acquisitions (fst (scrape_all [2; 0; 1]%nat sample_rows (empty_world 0)))
     = (acquisitions (empty_world 0) + usable_urls (map Poster sample_rows))%nat.
Proof.
  apply (scrape_all_frees_all_slots [2; 0; 1]%nat sample_rows (empty_world 0)
           (fst (scrape_all [2; 0; 1]%nat sample_rows (empty_world 0)))
           [("poster_images/Toy_Story.jpg", 83)]).
  - exact (Permutation_cons_app [0; 1]%nat [] 2%nat (Permutation_refl _)).
  - vm_compute; reflexivity.
Defined.

(** X18: titles with the same filename share one entry path.  When two
    rows whose titles have the same target path both download, the run
    completes under both schedules and returns two entries with that one
    path, each with the score of its row, in the order of the rows. *)
Theorem colliding_titles_share_a_path {Score} (env1 env2 : Env)
    (t1 t2 u1 u2 : string) (s1 s2 : Score) (c1 c2 : bytes) (w : World)
    (order : list nat) :
  target_path t1 = target_path t2 ->
  startswith u1 "http" = true -> startswith u2 "http" = true ->
  env_get env1 = GetResponse 200 (ReadOk c1) -> env_write env1 = WriteOk ->
  env_get env2 = GetResponse 200 (ReadOk c2) -> env_write env2 = WriteOk ->
  schedule_of [mk_row t1 (UrlStr u1) s1 env1; mk_row t2 (UrlStr u2) s2 env2]
              order ->
  exists w',
    scrape_all order
      [mk_row t1 (UrlStr u1) s1 env1; mk_row t2 (UrlStr u2) s2 env2] w
    = (w', Returns [(target_path t1, s1); (target_path t1, s2)]).
Proof.
  intros Hsame Hu1 Hu2 Hg1 Hw1 Hg2 Hw2 Hp.
  assert (Hfree : (0 < sem_value (set_sem CONCURRENCY w))%nat).
  { change (sem_value (set_sem CONCURRENCY w)) with CONCURRENCY.
    unfold CONCURRENCY; lia. }
  assert (Horder : order = [0; 1]%nat \/ order = [1; 0]%nat).
  { unfold schedule_of in Hp. simpl in Hp.
    pose proof (Permutation_length Hp) as Hlen.
    destruct order as [|a [|b [|c rest]]]; try discriminate Hlen.
    apply Permutation_sym, Permutation_length_2_inv in Hp as [Hp|Hp];
      inversion Hp; auto. }
  destruct Horder as [-> | ->].
  - destruct (fetch_image_stores env1 t1 u1 s1 c1 _ Hu1 Hg1 Hw1 Hfree)
      as (w1 & Hrun1 & _).
    assert (Hfree1 : (0 < sem_value w1)%nat).
    { pose proof (fetch_image_sem env1 t1 (UrlStr u1) s1
                    (set_sem CONCURRENCY w)) as Hsem.
      rewrite Hrun1 in Hsem. simpl fst in Hsem. now rewrite Hsem. }
    destruct (fetch_image_stores env2 t2 u2 s2 c2 w1 Hu2 Hg2 Hw2 Hfree1)
      as (w2 & Hrun2 & _).
    exists w2.
    unfold scrape_all, gather, bind, ret. cbn [map omap list_omap lookup list_lookup].
    simpl omap. cbn [await_each]. unfold bind, ret.
    unfold fetch_row. cbn [answers Title Poster IMDB_Score].
    rewrite Hrun1, Hrun2, Hsame. reflexivity.
  - destruct (fetch_image_stores env2 t2 u2 s2 c2 _ Hu2 Hg2 Hw2 Hfree)
      as (w1 & Hrun2 & _).
    assert (Hfree1 : (0 < sem_value w1)%nat).
    { pose proof (fetch_image_sem env2 t2 (UrlStr u2) s2
                    (set_sem CONCURRENCY w)) as Hsem.
      rewrite Hrun2 in Hsem. simpl fst in Hsem. now rewrite Hsem. }
    destruct (fetch_image_stores env1 t1 u1 s1 c1 w1 Hu1 Hg1 Hw1 Hfree1)
      as (w2 & Hrun1 & _).
    exists w2.
    unfold scrape_all, gather, bind, ret.
    simpl omap. cbn [await_each]. unfold bind, ret.
    unfold fetch_row. cbn [answers Title Poster IMDB_Score].
    rewrite Hrun2, Hrun1, Hsame. reflexivity.
Qed.

Lemma colliding_titles_share_a_path_witness :
  exists w',
    scrape_all [1; 0]%nat
      [mk_row "Who?" (UrlStr "http://x/1.jpg") 70 ok_poster;
       mk_row "Who!" (UrlStr "http://x/2.jpg") 55
              (mk_env (GetResponse 200 (ReadOk [Byte.x00])) WriteOk)]
      (empty_world 0)
    = (w', Returns [(target_path "Who?", 70); (target_path "Who?", 55)]).
Proof.
  apply (colliding_titles_share_a_path ok_poster
           (mk_env (GetResponse 200 (ReadOk [Byte.x00])) WriteOk)
           "Who?" "Who!" "http://x/1.jpg" "http://x/2.jpg" 70 55
           poster_bytes [Byte.x00] (empty_world 0) [1; 0]%nat);
    try reflexivity.
  exact (perm_swap 0%nat 1%nat []).
Defined.

(** X22: the network and the disk never end a run.  Every exception of
    the request, of the read of the body and of the write of the file is
    caught in the fetch: a fetch ends with an exception only when one of
    its appends to the failure log raised it, the first, or the second
    when the first was made in the [try]; and a run, under every
    schedule, ends with an exception only when an append to the log
    raised it. *)
Theorem only_the_log_ends_a_run {Score} :
  (forall (env : Env) (title : string) (url : url_value) (score : Score)
          (w : World) (e : exn),
      snd (fetch_image env title url score w) = Raises e ->
      exists a, In a (take 2 (log_script w)) /\ raised_of a = Some e)
  /\ (forall (order : list nat) (df : list (Row Score)) (w : World) (e : exn),
        schedule_of df order ->
        snd (scrape_all order df w) = Raises e ->
        exists a, In a (log_script w) /\ raised_of a = Some e).
Proof.
  split.
  - intros env title url score w e. apply fetch_image_raises.
  - intros order df w e _ H. apply scrape_all_raises in H.
    apply await_each_raises in H. exact H.
Qed.

Lemma only_the_log_ends_a_run_witness :
  exists a, In a (log_script (log_fails 2 0)) /\ raised_of a = Some os_error.
Proof.
  apply (proj2 (@only_the_log_ends_a_run Z) [2; 0; 1]%nat sample_rows
           (log_fails 2 0) os_error).
  - exact (Permutation_cons_app [0; 1]%nat [] 2%nat (Permutation_refl _)).
  - vm_compute; reflexivity.
Defined.

(** * More on the reasons *)

Lemma to_int_not_nil (n : Z) :
  Z.to_int n <> Decimal.Pos Decimal.Nil /\ Z.to_int n <> Decimal.Neg Decimal.Nil.
Proof.
  destruct n; simpl; split; try discriminate;
    intros H; inversion H as [H1];
    now apply DecimalPos.Unsigned.to_uint_nonnil in H1.
Qed.

(** X19: the status can be read back from the reason.  The decimal
    numeral written after "http_status_" reads back as the status, so
    two responses with different statuses are logged with different
    reasons. *)
Theorem status_reads_back_from_reason (a b : Z) :
  option_map Z.of_int (NilZero.int_of_string (str_of_int a)) = Some a
  /\ ("http_status_" ++ str_of_int a = "http_status_" ++ str_of_int b ->
      a = b).
Proof.
  assert (Hback : forall n,
            option_map Z.of_int (NilZero.int_of_string (str_of_int n))
            = Some n).
  { intros n. unfold str_of_int.
    destruct (to_int_not_nil n) as [Hp Hn].
    rewrite (NilZero.isi _ Hp Hn). simpl. now rewrite DecimalZ.of_to. }
  split; [apply Hback|].
  intros H. simpl in H.
  assert (Heq : str_of_int a = str_of_int b) by now inversion H.
  pose proof (Hback a) as Ha. rewrite Heq, Hback in Ha. now inversion Ha.
Qed.

Lemma status_reads_back_from_reason_witness : 404 = 404.
Proof.
  exact (proj2 (status_reads_back_from_reason 404 404) eq_refl).
Defined.

(** * More on rows that fail the validation *)

(** X20: logging is not idempotent, the log is append-only.  Fetching
    the same row without a usable url twice, while the log can be
    opened, returns no pair both times and leaves the same line in the
    log twice, one after the other. *)
Theorem same_row_twice_logs_twice {Score} (env : Env) (title : string)
    (url : url_value) (score : Score) (w : World) :
  url_invalid url = true ->
  log_always_opens w ->
  let line := record_line (mk_record title url "invalid_or_missing_url" None) in
  let first := fetch_image env title url score w in
  let second := fetch_image env title url score (fst first) in
  snd first = Returns None /\ snd second = Returns None
  /\ failure_log (fst second) = (failure_log w ++ line) ++ line.
Proof.
  intros Hbad Hlog; simpl.
  assert (H1 : next_append_raises w = None).
  { unfold next_append_raises. destruct Hlog as [|o l Ho _]; [reflexivity|].
    now rewrite Ho. }
  rewrite (skipped_fetch_run env title url score w Hbad), H1. simpl.
  rewrite (skipped_fetch_run env title url score _ Hbad).
  assert (H2 : next_append_raises
                 (append_log
                    (record_line
                       (mk_record title url "invalid_or_missing_url" None))
                    (note_recorder_call
                       (mk_record title url "invalid_or_missing_url" None) w))
               = None).
  { unfold next_append_raises; simpl.
    destruct Hlog as [|o l _ Hl]; [reflexivity|]. simpl.
    destruct Hl as [|o' l' Ho' _]; [reflexivity | now rewrite Ho']. }
  rewrite H2. simpl. repeat split; reflexivity.
Qed.

Lemma same_row_twice_logs_twice_witness :
  let line := record_line (mk_record "Lost" UrlNaN "invalid_or_missing_url" None) in
  let first := fetch_image ok_poster "Lost" UrlNaN 61 (empty_world 1) in
  let second := fetch_image ok_poster "Lost" UrlNaN 61 (fst first) in
  snd first = Returns None /\ snd second = Returns None
  /\ failure_log (fst second) = (failure_log (empty_world 1) ++ line) ++ line.
Proof.
  apply (same_row_twice_logs_twice ok_poster "Lost" UrlNaN 61 (empty_world 1));
    [reflexivity | constructor].
Defined.

Lemma await_each_skipped {Score} (df : list (Row Score)) (w : World) :
  (forall row, In row df -> url_invalid (Poster row) = true) ->
  files (fst (await_each (map fetch_row df) w)) = files w
  /\ requests (fst (await_each (map fetch_row df) w)) = requests w
  /\ acquisitions (fst (await_each (map fetch_row df) w)) = acquisitions w
  /\ forall rs, snd (await_each (map fetch_row df) w) = Returns rs ->
               Forall (fun o => o = None) rs.
Proof.
  revert w; induction df as [|row df IH]; intros w Hbad.
  - repeat split. intros rs H; inversion H; constructor.
  - pose proof (skipped_fetch_run (answers row) (Title row) (Poster row)
                  (IMDB_Score row) w (Hbad row (or_introl eq_refl))) as Hrow.
    cbn [map await_each]; unfold bind, ret. unfold fetch_row at 1 3 5 7.
    rewrite Hrow. simpl.
    destruct (next_append_raises w); simpl.
    + repeat split. intros rs H; discriminate.
    + match goal with
      | |- context [await_each (map fetch_row df) ?w1] =>
          destruct (IH w1 (fun r Hr => Hbad r (or_intror Hr)))
            as (Hf & Hr & Ha & Hrs);
          destruct (await_each (map fetch_row df) w1) as [w2 [rs'|e|]] eqn:Hg
      end; simpl in *; repeat split; try assumption; intros rs H;
        try discriminate.
      inversion H; subst. constructor; [reflexivity | now apply Hrs].
Qed.

(** X21: rows without a usable url cost nothing but a line each.  A run
    over a table in which every url is missing or does not begin with
    "http" makes no request, takes no slot, writes no file, and, when it
    completes, returns an empty mapping, under every schedule. *)
Theorem invalid_rows_touch_nothing {Score} (order : list nat)
    (df : list (Row Score)) (w : World) :
  schedule_of df order ->
  (forall row, In row df -> url_invalid (Poster row) = true) ->
  files (fst (scrape_all order df w)) = files w
  /\ requests (fst (scrape_all order df w)) = requests w
  /\ acquisitions (fst (scrape_all order df w)) = acquisitions w
  /\ forall results,
      snd (scrape_all order df w) = Returns results -> results = [].
Proof.
  intros Hp Hbad.
  destruct (await_each_skipped (rows_in order df) (set_sem CONCURRENCY w))
    as (Hf & Hr & Ha & Hrs);
    [intros row Hrow; apply Hbad; now apply (rows_in_In order)|].
  rewrite scrape_all_fst.
  repeat split; try assumption.
  intros results H.
  assert (Hrun : scrape_all order df w
                 = (fst (scrape_all order df w), Returns results)).
  { rewrite <- H. now destruct (scrape_all order df w). }
  apply scrape_all_returns in Hrun as (rs & results0 & Hg & Hres & ->).
  rewrite Hg in Hrs. specialize (Hrs rs eq_refl).
  pose proof (await_each_length _ _ _ _ Hg) as Hlen.
  rewrite length_map, (rows_in_length order df Hp) in Hlen.
  rewrite (in_task_order_Permutation order rs results0 _ Hp Hlen Hres) in Hrs.
  clear - Hrs. unfold not_none.
  induction Hrs as [|o l Ho _ IH]; [reflexivity|]. subst o. exact IH.
Qed.

Lemma invalid_rows_touch_nothing_witness :
  let df := [mk_row "Lost" UrlNaN 61 ok_poster;
             mk_row "Odd" (UrlStr "ftp://x/odd.jpg") 40 ok_poster] in
  let run := scrape_all [1; 0]%nat df (empty_world 0) in
  files (fst run) = files (empty_world 0)
  /\ requests (fst run) = requests (empty_world 0)
  /\ acquisitions (fst run) = acquisitions (empty_world 0)
  /\ forall results, snd run = Returns results -> results = [].
Proof.
  apply (invalid_rows_touch_nothing [1; 0]%nat
           [mk_row "Lost" UrlNaN 61 ok_poster;
            mk_row "Odd" (UrlStr "ftp://x/odd.jpg") 40 ok_poster]
           (empty_world 0)).
  - exact (perm_swap 0%nat 1%nat []).
  - intros row [<-|[<-|[]]]; reflexivity.
Defined.
